(** * ChatBook MVP: segmentation, keyword matching and answer formatting

    A shallow embedding of [read_text_file], [split_text], [find_answer],
    [format_answer] and the question step of [main] of [chatbook.py], with
    the properties of the specification proved (or refuted) on it, and
    further properties read off the code.

    Python strings are sequences of Unicode code points: a character is a
    code point in [N], a string a list of them.  [len] is an [int] in the
    source and a [Z] here, as are [max_length], [max_display_length] and
    the score. *)

From Stdlib Require Import String Ascii List NArith ZArith Lia Bool.
Import ListNotations.

Local Open Scope N_scope.

(** ** Strings *)

Definition char := N.
Definition str := list char.

Definition len (s : str) : Z := Z.of_nat (length s).

(** Truth value of a string or of a list: non-empty. *)
Definition truthy {A : Type} (l : list A) : bool :=
  match l with
  | [] => false
  | _ :: _ => true
  end.

(** An ASCII literal as a string of code points (for the examples). *)
Definition lit (s : string) : str := map N_of_ascii (list_ascii_of_string s).

Definition NL : char := 10.
Definition SP : char := 32.

(** [str.isspace] on one code point, the set that [str.strip()] and
    [str.split()] without arguments use. *)
Definition is_space (c : char) : bool :=
  ((9 <=? c) && (c <=? 13)) || ((28 <=? c) && (c <=? 32))
  || (c =? 133) || (c =? 160) || (c =? 5760)
  || ((8192 <=? c) && (c <=? 8202))
  || (c =? 8232) || (c =? 8233) || (c =? 8239) || (c =? 8287) || (c =? 12288).

Definition mem_char (c : char) (chars : str) : bool := existsb (N.eqb c) chars.

(** [s.lstrip(..)], [s.rstrip(..)], [s.strip(..)], by the predicate that
    says which characters go. *)
Fixpoint lstrip_by (p : char -> bool) (s : str) : str :=
  match s with
  | [] => []
  | c :: s' => if p c then lstrip_by p s' else s
  end.

Definition rstrip_by (p : char -> bool) (s : str) : str :=
  rev (lstrip_by p (rev s)).

Definition strip_by (p : char -> bool) (s : str) : str :=
  rstrip_by p (lstrip_by p s).

(** [s.strip()] *)
Definition strip (s : str) : str := strip_by is_space s.

(** [s.strip(chars)] *)
Definition strip_chars (chars : str) (s : str) : str :=
  strip_by (fun c => mem_char c chars) s.

(** [s.split()]: the maximal runs of non-whitespace characters. *)
Fixpoint split_ws_from (cur : str) (s : str) : list str :=
  match s with
  | [] => if truthy cur then [cur] else []
  | c :: s' =>
      if is_space c
      then (if truthy cur then cur :: split_ws_from [] s' else split_ws_from [] s')
      else split_ws_from (cur ++ [c]) s'
  end.

Definition split_ws (s : str) : list str := split_ws_from [] s.

(** [s.split('\n\n')]: left to right, occurrences do not overlap, empty
    pieces are kept. *)
Fixpoint split_nn_from (cur : str) (s : str) : list str :=
  match s with
  | [] => [cur]
  | a :: tl =>
      match tl with
      | [] => [cur ++ [a]]
      | b :: rest =>
          if (a =? NL) && (b =? NL)
          then cur :: split_nn_from [] rest
          else split_nn_from (cur ++ [a]) tl
      end
  end.

Definition split_nn (s : str) : list str := split_nn_from [] s.

(** [s[:n]] for an [int] n: a negative n counts from the end. *)
Definition slice_to (s : str) (n : Z) : str :=
  if (0 <=? n)%Z then firstn (Z.to_nat n) s
  else firstn (Z.to_nat (len s + n)) s.

(** [w in s] on strings: [w] occurs in [s] as a contiguous run. *)
Fixpoint starts_with (s w : str) : bool :=
  match w, s with
  | [], _ => true
  | _ :: _, [] => false
  | a :: w', b :: s' => (a =? b) && starts_with s' w'
  end.

Fixpoint contains (s w : str) : bool :=
  starts_with s w ||
  match s with
  | [] => false
  | _ :: s' => contains s' w
  end.

(** ** Segmenter: [split_text] *)

Module Segmenter.

Definition default_max_length : Z := 5000.

(** [[part.strip() for part in text.split('\n\n') if part.strip()]] *)
Definition paragraphs (text : str) : list str :=
  map strip (filter (fun part => truthy (strip part)) (split_nn text)).

(** [char in '.!?'] *)
Definition is_terminal (c : char) : bool := mem_char c [46; 33; 63].

(** The loop over the characters of a long part; the state is
    [(sentences, current_sentence)]. *)
Fixpoint sentence_loop (part : str) (sentences : list str) (current_sentence : str)
  : list str * str :=
  match part with
  | [] => (sentences, current_sentence)
  | c :: rest =>
      let current_sentence := current_sentence ++ [c] in
      if is_terminal c
      then sentence_loop rest (sentences ++ [strip current_sentence]) []
      else sentence_loop rest sentences current_sentence
  end.

Definition sentences_of (part : str) : list str :=
  let '(sentences, current_sentence) := sentence_loop part [] [] in
  if truthy (strip current_sentence)
  then sentences ++ [strip current_sentence]
  else sentences.

(** The packing loop over the sentences; the state is
    [(final_parts, current_part)]. *)
Fixpoint pack_loop (max_length : Z) (sentences : list str)
    (final_parts : list str) (current_part : str) : list str * str :=
  match sentences with
  | [] => (final_parts, current_part)
  | sentence :: rest =>
      if (len current_part + len sentence + 1 <=? max_length)%Z
      then
        pack_loop max_length rest final_parts
          (if truthy current_part then current_part ++ [SP] ++ sentence
           else sentence)
      else
        pack_loop max_length rest
          (if truthy current_part then final_parts ++ [current_part]
           else final_parts)
          sentence
  end.

(** The loop over the parts. *)
Fixpoint parts_loop (max_length : Z) (parts : list str) (final_parts : list str)
  : list str :=
  match parts with
  | [] => final_parts
  | part :: rest =>
      if (len part <=? max_length)%Z
      then parts_loop max_length rest (final_parts ++ [part])
      else
        let '(final_parts, current_part) :=
          pack_loop max_length (sentences_of part) final_parts [] in
        parts_loop max_length rest
          (if truthy current_part then final_parts ++ [current_part]
           else final_parts)
  end.

Definition split_text (text : str) (max_length : Z) : list str :=
  let final_parts := parts_loop max_length (paragraphs text) [] in
  if truthy final_parts then final_parts else [text].

End Segmenter.

(** ** Matcher: [find_answer] *)

(** A call either returns or raises [IndexError]. *)
Inductive result (A : Type) : Type :=
| Ok (a : A)
| IndexError.
Arguments Ok {A} a.
Arguments IndexError {A}.

Module Matcher.

(** The argument of [word.strip]: . , ! ? ; : ( ) [ ] { } and the double
    and single quotes (code points 34 and 39). *)
Definition punctuation : str :=
  [46; 44; 33; 63; 59; 58; 40; 41; 91; 93; 123; 125; 34; 39].

(** "Не удалось определить ключевые слова в вопросе." *)
Definition no_keywords_message : str :=
  [1053; 1077; 32; 1091; 1076; 1072; 1083; 1086; 1089; 1100; 32; 1086; 1087;
   1088; 1077; 1076; 1077; 1083; 1080; 1090; 1100; 32; 1082; 1083; 1102; 1095;
   1077; 1074; 1099; 1077; 32; 1089; 1083; 1086; 1074; 1072; 32; 1074; 32;
   1074; 1086; 1087; 1088; 1086; 1089; 1077; 46].

(** "Не найдено точного совпадения. Вот начало текста:\n" *)
Definition no_match_message : str :=
  [1053; 1077; 32; 1085; 1072; 1081; 1076; 1077; 1085; 1086; 32; 1090; 1086;
   1095; 1085; 1086; 1075; 1086; 32; 1089; 1086; 1074; 1087; 1072; 1076; 1077;
   1085; 1080; 1103; 46; 32; 1042; 1086; 1090; 32; 1085; 1072; 1095; 1072;
   1083; 1086; 32; 1090; 1077; 1082; 1089; 1090; 1072; 58; 10].

Section WithLower.

(** [str.lower], the case mapping of the Unicode database, is Python's and
    not the program's: the Matcher is modelled over any such mapping. *)
Variable lower : str -> str.

(** [[word.strip(P) for word in question_lower.split() if len(word.strip(P)) > 2]] *)
Definition question_words (question : str) : list str :=
  map (strip_chars punctuation)
    (filter (fun word => (2 <? len (strip_chars punctuation word))%Z)
       (split_ws (lower question))).

(** The inner loop: one more for each word found in the lowered part. *)
Fixpoint score_loop (part_lower : str) (words : list str) (score : Z) : Z :=
  match words with
  | [] => score
  | word :: rest =>
      score_loop part_lower rest
        (if contains part_lower word then (score + 1)%Z else score)
  end.

Definition score_of (words : list str) (part : str) : Z :=
  score_loop (lower part) words 0%Z.

(** The outer loop; the state is [(best_match, best_score)]. *)
Fixpoint scan (words : list str) (text_parts : list str)
    (best_match : str) (best_score : Z) : str * Z :=
  match text_parts with
  | [] => (best_match, best_score)
  | part :: rest =>
      let score := score_of words part in
      if (best_score <? score)%Z
      then scan words rest part score
      else scan words rest best_match best_score
  end.

Definition find_answer (question : str) (text_parts : list str)
  : result (str * Z) :=
  let words := question_words question in
  if negb (truthy words) then Ok (no_keywords_message, 0%Z)
  else
    let '(best_match, best_score) := scan words text_parts [] 0%Z in
    if (best_score =? 0)%Z
    then
      match text_parts with
      | [] => IndexError
      | first :: _ => Ok (no_match_message ++ slice_to first 500, 0%Z)
      end
    else Ok (best_match, best_score).

End WithLower.

(** A case mapping for the examples: A-Z and the basic Cyrillic capitals. *)
Definition lower_char (c : char) : char :=
  if (65 <=? c) && (c <=? 90) then c + 32
  else if (1040 <=? c) && (c <=? 1071) then c + 32
  else c.

Definition simple_lower (s : str) : str := map lower_char s.

End Matcher.

(** ** Presenter: [format_answer] *)

Module Presenter.

Definition default_max_display_length : Z := 1000.

(** "\n\n[... текст обрезан ...]" *)
Definition truncation_marker : str :=
  [10; 10; 91; 46; 46; 46; 32; 1090; 1077; 1082; 1089; 1090; 32; 1086; 1073;
   1088; 1077; 1079; 1072; 1085; 32; 46; 46; 46; 93].

Definition format_answer (answer_text : str) (max_display_length : Z) : str :=
  if (len answer_text <=? max_display_length)%Z then answer_text
  else slice_to answer_text max_display_length ++ truncation_marker.

End Presenter.

(** ** Notions the properties are stated with *)

(** The non-whitespace characters of a string, in order. *)
Definition nonws (s : str) : str := filter (fun c => negb (is_space c)) s.

(** No whitespace at the front. *)
Definition clean_head (s : str) : bool :=
  match s with
  | [] => true
  | c :: _ => negb (is_space c)
  end.

(** [w] occurs in [s] as a contiguous run of characters. *)
Definition substring (w s : str) : Prop :=
  exists pre post, s = pre ++ w ++ post.

(** A string without whitespace at either end. *)
Definition trimmed (s : str) : Prop :=
  clean_head s = true /\ clean_head (rev s) = true.

(** Non-empty and trimmed: what a paragraph or a sentence unit is. *)
Definition tidy (s : str) : Prop := s <> [] /\ trimmed s.

(** The keywords as the specification words them: the tokens of the
    lowered question, stripped of edge punctuation, of stripped length
    above 2.  (The source filters first and strips again: [question_words].) *)
Definition keyword_tokens (lower : str -> str) (question : str) : list str :=
  filter (fun w => (2 <? len w)%Z)
    (map (strip_chars Matcher.punctuation) (split_ws (lower question))).

(** The number of entries of [words] that occur in [s]. *)
Definition hits (words : list str) (s : str) : Z :=
  Z.of_nat (length (filter (contains s) words)).

Definition str_eq_dec : forall a b : str, {a = b} + {a <> b} :=
  list_eq_dec N.eq_dec.

(** ** Loader: [read_text_file] *)

Module Loader.

Inductive encoding : Type := UTF8 | CP1251.

(** What the function asks of the operating system: [os.path.exists],
    [os.path.isfile], and the text of a file read in an encoding, [None]
    when the bytes do not decode ([UnicodeDecodeError]). *)
Record filesystem (path : Type) : Type := {
  path_exists : path -> bool;
  path_isfile : path -> bool;
  read_as : path -> encoding -> option str
}.
Arguments path_exists {path} _ _.
Arguments path_isfile {path} _ _.
Arguments read_as {path} _ _ _.

Inductive error : Type :=
| FileNotFoundError
| ValueError_not_a_file
| ValueError_empty_file
| UnicodeDecodeError.

Definition read_text_file {path : Type} (fs : filesystem path) (file_path : path)
  : str + error :=
  if negb (path_exists fs file_path) then inr FileNotFoundError
  else if negb (path_isfile fs file_path) then inr ValueError_not_a_file
  else
    let decoded :=
      match read_as fs file_path UTF8 with
      | Some text => Some text
      | None => read_as fs file_path CP1251
      end in
    match decoded with
    | None => inr UnicodeDecodeError
    | Some text =>
        if negb (truthy (strip text)) then inr ValueError_empty_file
        else inl text
    end.

End Loader.

(** ** One question of the session: the body of the loop of [main] *)

Module Session.

(** [answer, score = find_answer(question, text_parts)] and then
    [format_answer(answer)], with the default display length. *)
Definition answer_question (lower : str -> str) (text_parts : list str)
    (question : str) : result (str * Z) :=
  match Matcher.find_answer lower question text_parts with
  | Ok (answer, score) =>
      Ok (Presenter.format_answer answer Presenter.default_max_display_length,
          score)
  | IndexError => IndexError
  end.

(** [text_parts = split_text(text)], then a question. *)
Definition session_answer (lower : str -> str) (text : str) (question : str)
  : result (str * Z) :=
  answer_question lower
    (Segmenter.split_text text Segmenter.default_max_length) question.

End Session.

(** [' '.join(l)] *)
Fixpoint join_sp (l : list str) : str :=
  match l with
  | [] => []
  | s :: rest =>
      match rest with
      | [] => s
      | _ :: _ => s ++ [SP] ++ join_sp rest
      end
  end.

(** [if current_part: final_parts.append(current_part)] *)
Definition flush (final_parts : list str) (current_part : str) : list str :=
  if truthy current_part then final_parts ++ [current_part] else final_parts.

(** The packing loop and the flush that follows it. *)
Definition packed (max_length : Z) (sentences : list str)
    (final_parts : list str) (current_part : str) : list str :=
  let '(final_parts, current_part) :=
    Segmenter.pack_loop max_length sentences final_parts current_part in
  flush final_parts current_part.

(** Every character but the last is no sentence terminal. *)
Definition terminal_only_last (s : str) : Prop :=
  exists body last,
    s = body ++ [last]
    /\ forallb (fun c => negb (Segmenter.is_terminal c)) body = true.

(** Two newlines in a row somewhere in the string. *)
Fixpoint has_blank_line (s : str) : bool :=
  match s with
  | [] => false
  | a :: tl =>
      match tl with
      | [] => false
      | b :: _ => ((a =? NL) && (b =? NL)) || has_blank_line tl
      end
  end.

(** The chunks that the loop of [split_text] emits for one part. *)
Definition part_chunks (max_length : Z) (part : str) : list str :=
  Segmenter.parts_loop max_length [part] [].

(** No character of the string is whitespace, is a sentence terminal. *)
Definition no_space (s : str) : bool := forallb (fun c => negb (is_space c)) s.

Definition no_terminal (s : str) : bool :=
  forallb (fun c => negb (Segmenter.is_terminal c)) s.

(** A file system of one file, for the examples. *)
Definition one_file (content : str) : Loader.filesystem unit :=
  {| Loader.path_exists := fun _ => true;
     Loader.path_isfile := fun _ => true;
     Loader.read_as := fun _ _ => Some content |}.

(** Texts for the examples. *)
Definition two_paragraphs : str :=
  lit "Cats are small." ++ [NL; NL] ++ lit " Dogs are big. ".

Definition three_sentences : str := lit "Aaa. Bbbbbbbb. Cc.".

(** ** The scenarios of the specification *)

Example scenario_segment :
  Segmenter.split_text
    (lit "Cats are small." ++ [NL; NL] ++ lit "Dogs are big.")
    Segmenter.default_max_length
  = [lit "Cats are small."; lit "Dogs are big."].
Proof. vm_compute. reflexivity. Qed.

Example scenario_keywords :
  Matcher.question_words Matcher.simple_lower (lit "What do dogs do?")
  = [lit "what"; lit "dogs"].
Proof. vm_compute. reflexivity. Qed.

Example scenario_match :
  Matcher.find_answer Matcher.simple_lower (lit "What do dogs do?")
    [lit "Cats are small."; lit "Dogs are big."]
  = Ok (lit "Dogs are big.", 1%Z).
Proof. vm_compute. reflexivity. Qed.

Example scenario_no_match :
  Matcher.find_answer Matcher.simple_lower (lit "xyz abc")
    [lit "Cats are small."; lit "Dogs are big."]
  = Ok (Matcher.no_match_message ++ lit "Cats are small.", 0%Z).
Proof. vm_compute. reflexivity. Qed.

(** ** Facts on strings *)

Section StripFacts.

Variable p : char -> bool.

Lemma lstrip_by_split (s : str) :
  exists pre, s = pre ++ lstrip_by p s /\ forallb p pre = true.
Proof.
  induction s as [|c s IH]; simpl.
  - exists []. auto.
  - destruct (p c) eqn:Hc.
    + destruct IH as [pre [E F]]. exists (c :: pre). simpl.
      rewrite Hc, F. split; [congruence | reflexivity].
    + exists []. auto.
Qed.

Lemma rstrip_by_split (s : str) :
  exists post, s = rstrip_by p s ++ post /\ forallb p post = true.
Proof.
  unfold rstrip_by. destruct (lstrip_by_split (rev s)) as [pre [E F]].
  exists (rev pre). split.
  - rewrite <- rev_app_distr, <- E, rev_involutive. reflexivity.
  - rewrite forallb_forall in *. intros x Hx. apply F, in_rev, Hx.
Qed.

Lemma strip_by_split (s : str) :
  exists pre post,
    s = pre ++ strip_by p s ++ post
    /\ forallb p pre = true /\ forallb p post = true.
Proof.
  unfold strip_by.
  destruct (lstrip_by_split s) as [pre [E F]].
  destruct (rstrip_by_split (lstrip_by p s)) as [post [E' F']].
  exists pre, post. split; [|auto].
  rewrite <- E'. exact E.
Qed.

Lemma lstrip_by_head (s : str) :
  match lstrip_by p s with [] => True | c :: _ => p c = false end.
Proof.
  induction s as [|c s IH]; simpl; [exact I|].
  destruct (p c) eqn:Hc; [exact IH | exact Hc].
Qed.

Lemma lstrip_by_fixed (s : str) :
  match s with [] => True | c :: _ => p c = false end -> lstrip_by p s = s.
Proof. destruct s as [|c s]; simpl; [reflexivity|]. intros ->. reflexivity. Qed.

End StripFacts.

Lemma nonws_app (a b : str) : nonws (a ++ b) = nonws a ++ nonws b.
Proof. apply filter_app. Qed.

Lemma nonws_all_space (s : str) : forallb is_space s = true -> nonws s = [].
Proof.
  induction s as [|c s IH]; simpl; [reflexivity|].
  intros H. apply andb_true_iff in H as [Hc Hs]. rewrite Hc. simpl. auto.
Qed.

Lemma nonws_strip (s : str) : nonws (strip s) = nonws s.
Proof.
  destruct (strip_by_split is_space s) as [pre [post [E [F G]]]].
  fold (strip s) in E. rewrite E at 2.
  rewrite !nonws_app, (nonws_all_space _ F), (nonws_all_space _ G), app_nil_r.
  reflexivity.
Qed.

Lemma nonws_concat_app (l1 l2 : list str) :
  nonws (concat (l1 ++ l2)) = nonws (concat l1) ++ nonws (concat l2).
Proof. rewrite concat_app. apply nonws_app. Qed.

Lemma clean_head_iff (s : str) :
  clean_head s = true <->
  match s with [] => True | c :: _ => is_space c = false end.
Proof.
  destruct s as [|c s]; simpl; [tauto|]. apply negb_true_iff.
Qed.

Lemma clean_head_app (a b : str) :
  a <> [] -> clean_head (a ++ b) = clean_head a.
Proof. destruct a; [congruence | reflexivity]. Qed.

Lemma trimmed_strip (s : str) : trimmed (strip s).
Proof.
  unfold trimmed, strip, strip_by. split.
  - pose proof (lstrip_by_head is_space s) as H.
    destruct (rstrip_by_split is_space (lstrip_by is_space s)) as [post [E _]].
    apply clean_head_iff.
    destruct (rstrip_by is_space (lstrip_by is_space s)) as [|c r]; [exact I|].
    rewrite E in H. exact H.
  - unfold rstrip_by. rewrite rev_involutive.
    apply clean_head_iff, lstrip_by_head.
Qed.

Lemma strip_trimmed (s : str) : trimmed s -> strip s = s.
Proof.
  intros [H1 H2]. unfold strip, strip_by, rstrip_by.
  rewrite (lstrip_by_fixed is_space s) by (apply clean_head_iff, H1).
  rewrite (lstrip_by_fixed is_space (rev s)) by (apply clean_head_iff, H2).
  apply rev_involutive.
Qed.

Lemma trimmed_join (a b : str) :
  a <> [] -> b <> [] -> trimmed a -> trimmed b -> trimmed (a ++ [SP] ++ b).
Proof.
  intros Ha Hb [Ha1 _] [_ Hb2]. split.
  - rewrite clean_head_app; assumption.
  - rewrite !rev_app_distr, <- app_assoc, clean_head_app; [assumption|].
    intros E. apply Hb. rewrite <- (rev_involutive b), E. reflexivity.
Qed.

Lemma truthy_true {A : Type} (l : list A) : truthy l = true <-> l <> [].
Proof. destruct l; simpl; split; congruence. Qed.

Lemma truthy_false {A : Type} (l : list A) : truthy l = false <-> l = [].
Proof. destruct l; simpl; split; congruence. Qed.

(** ** The Segmenter *)

Module SegmenterFacts.
Import Segmenter.

Lemma NL_is_space : is_space NL = true.
Proof. reflexivity. Qed.

Lemma SP_is_space : is_space SP = true.
Proof. reflexivity. Qed.

Lemma terminal_not_space (c : char) : is_terminal c = true -> is_space c = false.
Proof.
  unfold is_terminal, mem_char. simpl. rewrite !orb_true_iff, !N.eqb_eq.
  intros [H | [H | [H | H]]]; subst; try reflexivity; discriminate.
Qed.

(** *** Splitting keeps the non-whitespace characters *)

Lemma split_nn_from_step (cur : str) (a b : char) (rest : str) :
  split_nn_from cur (a :: b :: rest)
  = if (a =? NL) && (b =? NL)
    then cur :: split_nn_from [] rest
    else split_nn_from (cur ++ [a]) (b :: rest).
Proof. reflexivity. Qed.

Lemma nonws_split_nn_from (n : nat) :
  forall s cur, (length s <= n)%nat ->
    nonws (concat (split_nn_from cur s)) = nonws (cur ++ s).
Proof.
  induction n as [|n IH]; intros s cur Hn.
  - destruct s; simpl in Hn; [|lia]. simpl. rewrite !app_nil_r. reflexivity.
  - destruct s as [|a [|b rest]].
    + simpl. rewrite !app_nil_r. reflexivity.
    + simpl. rewrite app_nil_r. reflexivity.
    + rewrite split_nn_from_step. destruct ((a =? NL) && (b =? NL)) eqn:E.
      * apply andb_true_iff in E as [Ea Eb].
        apply N.eqb_eq in Ea, Eb. subst a b.
        cbn [concat]. rewrite nonws_app, IH by (simpl in *; lia).
        rewrite !nonws_app. simpl. reflexivity.
      * rewrite IH by (simpl in *; lia).
        rewrite <- app_assoc. reflexivity.
Qed.

Lemma nonws_split_nn (text : str) : nonws (concat (split_nn text)) = nonws text.
Proof. apply (nonws_split_nn_from (length text)). lia. Qed.

Lemma nonws_kept_parts (l : list str) :
  nonws (concat (map strip (filter (fun part => truthy (strip part)) l)))
  = nonws (concat l).
Proof.
  induction l as [|part l IH]; [reflexivity|].
  cbn [filter concat]. rewrite nonws_app.
  destruct (truthy (strip part)) eqn:E.
  - cbn [map concat]. rewrite nonws_app, nonws_strip, IH. reflexivity.
  - apply truthy_false in E. rewrite IH, <- (nonws_strip part), E. reflexivity.
Qed.

Lemma nonws_paragraphs (text : str) :
  nonws (concat (paragraphs text)) = nonws text.
Proof. unfold paragraphs. rewrite nonws_kept_parts. apply nonws_split_nn. Qed.

Lemma nonws_sentence_loop (part : str) :
  forall sentences current,
    nonws (concat (fst (sentence_loop part sentences current)))
      ++ nonws (snd (sentence_loop part sentences current))
    = nonws (concat sentences) ++ nonws current ++ nonws part.
Proof.
  induction part as [|c rest IH]; intros sentences current.
  - simpl. rewrite app_nil_r. reflexivity.
  - change (nonws (c :: rest)) with (nonws ([c] ++ rest)).
    rewrite (nonws_app [c] rest).
    cbn [sentence_loop]. destruct (is_terminal c).
    + rewrite IH, nonws_concat_app. cbn [concat].
      rewrite app_nil_r, nonws_strip, nonws_app, <- !app_assoc.
      reflexivity.
    + rewrite IH, nonws_app, <- !app_assoc. reflexivity.
Qed.

Lemma nonws_sentences_of (part : str) :
  nonws (concat (sentences_of part)) = nonws part.
Proof.
  unfold sentences_of.
  pose proof (nonws_sentence_loop part [] []) as H.
  destruct (sentence_loop part [] []) as [sentences current].
  simpl in H. rewrite <- H.
  destruct (truthy (strip current)) eqn:E.
  - rewrite nonws_concat_app. simpl. rewrite app_nil_r, nonws_strip. reflexivity.
  - apply truthy_false in E. rewrite <- (nonws_strip current), E, app_nil_r.
    reflexivity.
Qed.

Lemma nonws_pack_loop (max_length : Z) (sentences : list str) :
  forall final_parts current_part,
    nonws (concat (fst (pack_loop max_length sentences final_parts current_part)))
      ++ nonws (snd (pack_loop max_length sentences final_parts current_part))
    = nonws (concat final_parts) ++ nonws current_part
        ++ nonws (concat sentences).
Proof.
  induction sentences as [|s rest IH]; intros fp cp.
  - simpl. rewrite app_nil_r. reflexivity.
  - cbn [pack_loop concat].
    destruct (len cp + len s + 1 <=? max_length)%Z; rewrite IH.
    + destruct cp as [|c cp]; cbn [truthy].
      * rewrite nonws_app. reflexivity.
      * rewrite !nonws_app. cbn [nonws filter]. rewrite SP_is_space.
        cbn [negb app]. rewrite <- !app_assoc. reflexivity.
    + destruct cp as [|c cp]; cbn [truthy].
      * rewrite nonws_app. reflexivity.
      * rewrite nonws_concat_app, nonws_app. cbn [concat].
        rewrite app_nil_r, <- !app_assoc. reflexivity.
Qed.

Lemma nonws_parts_loop (max_length : Z) (parts : list str) :
  forall final_parts,
    nonws (concat (parts_loop max_length parts final_parts))
    = nonws (concat final_parts) ++ nonws (concat parts).
Proof.
  induction parts as [|part rest IH]; intros fp.
  - simpl. rewrite app_nil_r. reflexivity.
  - cbn [parts_loop concat]. rewrite nonws_app.
    destruct (len part <=? max_length)%Z.
    + rewrite IH, nonws_concat_app. cbn [concat].
      rewrite app_nil_r, <- app_assoc. reflexivity.
    + pose proof (nonws_pack_loop max_length (sentences_of part) fp []) as H.
      destruct (pack_loop max_length (sentences_of part) fp []) as [fp' cp'].
      cbn [fst snd] in H. rewrite nonws_sentences_of in H. simpl in H.
      rewrite IH, app_assoc, <- H.
      destruct cp' as [|c cp']; cbn [truthy].
      * simpl. rewrite app_nil_r. reflexivity.
      * rewrite nonws_concat_app. cbn [concat]. rewrite app_nil_r. reflexivity.
Qed.

(** *** Sentence units are trimmed and non-empty *)

Lemma strip_ne (s : str) : nonws s <> [] -> strip s <> [].
Proof. intros H E. apply H. rewrite <- nonws_strip, E. reflexivity. Qed.

Lemma tidy_strip (s : str) : truthy (strip s) = true -> tidy (strip s).
Proof. intros H. split; [apply truthy_true, H | apply trimmed_strip]. Qed.

Lemma sentence_loop_tidy (part : str) :
  forall sentences current,
    Forall tidy sentences ->
    Forall tidy (fst (sentence_loop part sentences current)).
Proof.
  induction part as [|c rest IH]; intros sentences current H; [exact H|].
  cbn [sentence_loop]. destruct (is_terminal c) eqn:Hc; apply IH; [|exact H].
  apply Forall_app. split; [exact H|]. constructor; [|constructor].
  split; [|apply trimmed_strip].
  apply strip_ne. rewrite nonws_app. simpl.
  rewrite (terminal_not_space c Hc). simpl.
  destruct (nonws current); discriminate.
Qed.

Lemma sentences_of_tidy (part : str) : Forall tidy (sentences_of part).
Proof.
  unfold sentences_of.
  pose proof (sentence_loop_tidy part [] [] (Forall_nil _)) as H.
  destruct (sentence_loop part [] []) as [sentences current].
  cbn [fst] in H. destruct (truthy (strip current)) eqn:E; [|exact H].
  apply Forall_app. split; [exact H|].
  constructor; [apply tidy_strip, E | constructor].
Qed.

(** *** Loop invariants *)

(** A property of chunks that every sentence has and that joining a chunk
    and a sentence keeps, when the join fits, holds of all that the packing
    loop emits and of what it holds back. *)
Lemma pack_loop_invariant (max_length : Z) (Q : str -> Prop)
    (sentences : list str) :
  (forall s, In s sentences -> Q s) ->
  (forall cp s, Q cp -> In s sentences -> cp <> [] ->
     (len cp + len s + 1 <= max_length)%Z -> Q (cp ++ [SP] ++ s)) ->
  forall final_parts current_part,
    Forall Q final_parts -> (current_part = [] \/ Q current_part) ->
    Forall Q (fst (pack_loop max_length sentences final_parts current_part))
    /\ (snd (pack_loop max_length sentences final_parts current_part) = []
        \/ Q (snd (pack_loop max_length sentences final_parts current_part))).
Proof.
  induction sentences as [|s rest IH]; intros Hs Hj fp cp Hfp Hcp.
  - simpl. auto.
  - assert (Hs' : forall s', In s' rest -> Q s') by (intros; apply Hs; simpl; auto).
    assert (Hj' : forall cp s', Q cp -> In s' rest -> cp <> [] ->
              (len cp + len s' + 1 <= max_length)%Z -> Q (cp ++ [SP] ++ s'))
      by (intros; apply Hj; simpl; auto).
    cbn [pack_loop].
    destruct (len cp + len s + 1 <=? max_length)%Z eqn:E.
    + apply IH; auto. right. destruct cp as [|c cp]; cbn [truthy].
      * apply Hs; simpl; auto.
      * destruct Hcp as [Hcp | Hcp]; [discriminate|].
        apply Hj; auto; [simpl; auto | discriminate | apply Z.leb_le, E].
    + apply IH; auto.
      * destruct cp as [|c cp]; cbn [truthy]; [exact Hfp|].
        destruct Hcp as [Hcp | Hcp]; [discriminate|].
        apply Forall_app. split; [exact Hfp | constructor; [exact Hcp | constructor]].
      * right. apply Hs; simpl; auto.
Qed.

Lemma parts_loop_invariant (max_length : Z) (Q : str -> Prop)
    (parts : list str) :
  (forall part, In part parts -> (len part <= max_length)%Z -> Q part) ->
  (forall part s, In part parts -> (max_length < len part)%Z ->
     In s (sentences_of part) -> Q s) ->
  (forall part cp s, In part parts -> (max_length < len part)%Z ->
     Q cp -> In s (sentences_of part) -> cp <> [] ->
     (len cp + len s + 1 <= max_length)%Z -> Q (cp ++ [SP] ++ s)) ->
  forall final_parts,
    Forall Q final_parts -> Forall Q (parts_loop max_length parts final_parts).
Proof.
  induction parts as [|part rest IH]; intros Hshort Hsent Hjoin fp Hfp;
    [exact Hfp|].
  assert (IH' : forall fp', Forall Q fp' ->
            Forall Q (parts_loop max_length rest fp')).
  { apply IH; intros.
    - apply Hshort; simpl; auto.
    - apply (Hsent part0); simpl; auto.
    - apply (Hjoin part0); simpl; auto. }
  cbn [parts_loop]. destruct (len part <=? max_length)%Z eqn:E.
  - apply IH'. apply Forall_app. split; [exact Hfp|].
    constructor; [|constructor]. apply Hshort; [simpl; auto | apply Z.leb_le, E].
  - apply Z.leb_gt in E.
    destruct (pack_loop_invariant max_length Q (sentences_of part)
                (fun s Hs => Hsent part s (or_introl eq_refl) E Hs)
                (fun cp s Hq Hs => Hjoin part cp s (or_introl eq_refl) E Hq Hs)
                fp [] Hfp (or_introl eq_refl)) as [H1 H2].
    destruct (pack_loop max_length (sentences_of part) fp []) as [fp' cp'].
    cbn [fst snd] in H1, H2. apply IH'.
    destruct cp' as [|c cp']; cbn [truthy]; [exact H1|].
    destruct H2 as [H2 | H2]; [discriminate|].
    apply Forall_app. split; [exact H1 | constructor; [exact H2 | constructor]].
Qed.

(** *** The chunks of [split_text] *)

Lemma len_app (a b : str) : len (a ++ b) = (len a + len b)%Z.
Proof. unfold len. rewrite length_app. lia. Qed.

Lemma paragraphs_tidy (text part : str) : In part (paragraphs text) -> tidy part.
Proof.
  unfold paragraphs. intros H. apply in_map_iff in H as [x [E H]].
  apply filter_In in H as [_ H]. subst part. apply tidy_strip, H.
Qed.

Lemma nonws_final_parts (text : str) (max_length : Z) :
  nonws (concat (parts_loop max_length (paragraphs text) [])) = nonws text.
Proof. rewrite nonws_parts_loop. simpl. apply nonws_paragraphs. Qed.

(** The fallback [[text]] is taken exactly on a text without a
    non-whitespace character. *)
Lemma fallback_only_blank (text : str) (max_length : Z) :
  parts_loop max_length (paragraphs text) [] = [] -> nonws text = [].
Proof.
  intros E. rewrite <- (nonws_final_parts text max_length), E. reflexivity.
Qed.

(** C2, as the claim states it, fails: a text of three spaces is not empty,
    its only chunk is the text itself, longer than a [max_length] of 1, and
    it is no sentence unit, neither of a paragraph nor of the text. *)
Lemma split_text_bound_counterexample :
  ~ (forall (text : str) (max_length : Z) (chunk : str),
       text <> [] -> (0 < max_length)%Z ->
       In chunk (split_text text max_length) ->
       (len chunk <= max_length)%Z
       \/ ((max_length < len chunk)%Z
           /\ (In chunk (sentences_of text)
               \/ exists part,
                    In part (paragraphs text) /\ In chunk (sentences_of part)))).
Proof.
  intros H.
  destruct (H [SP; SP; SP] 1%Z [SP; SP; SP]) as [Hle | [_ [Hs | [part [Hp _]]]]].
  - discriminate.
  - reflexivity.
  - vm_compute. left. reflexivity.
  - vm_compute in Hle. apply Hle. reflexivity.
  - vm_compute in Hs. exact Hs.
  - vm_compute in Hp. exact Hp.
Qed.

(** C2 (amended): for every text and every [max_length], each chunk of
    [split_text] has length at most [max_length], or is one sentence unit,
    emitted whole, of a paragraph longer than [max_length], the unit itself
    being longer than [max_length], or the text has no non-whitespace
    character and the text itself is the only chunk. *)
Theorem split_text_chunk_bound (text : str) (max_length : Z) (chunk : str) :
  In chunk (split_text text max_length) ->
  (len chunk <= max_length)%Z
  \/ (exists part,
        In part (paragraphs text) /\ (max_length < len part)%Z
        /\ In chunk (sentences_of part) /\ (max_length < len chunk)%Z)
  \/ (nonws text = [] /\ split_text text max_length = [text] /\ chunk = text).
Proof.
  set (Q := fun c : str =>
    (len c <= max_length)%Z
    \/ exists part,
         In part (paragraphs text) /\ (max_length < len part)%Z
         /\ In c (sentences_of part) /\ (max_length < len c)%Z).
  assert (HQ : Forall Q (parts_loop max_length (paragraphs text) [])).
  { apply parts_loop_invariant; [| | |constructor].
    - intros part _ Hle. left. exact Hle.
    - intros part s Hp Hlong Hs.
      destruct (Z_le_gt_dec (len s) max_length) as [Hle | Hgt]; [left; exact Hle|].
      right. exists part. repeat split; auto. lia.
    - intros part cp s _ _ _ _ _ Hfit. left.
      rewrite !len_app. change (len [SP]) with 1%Z. lia. }
  unfold split_text.
  destruct (parts_loop max_length (paragraphs text) []) as [|c0 fp] eqn:E;
    cbn [truthy]; intros Hin.
  - right. right. destruct Hin as [Hin | []].
    repeat split; [|symmetry; exact Hin].
    apply (fallback_only_blank text max_length), E.
  - rewrite Forall_forall in HQ. destruct (HQ chunk Hin) as [Hle | Hsent]; auto.
Qed.

Lemma split_text_chunk_bound_witness :
  In (lit "Bbbbbbbb.") (split_text three_sentences 6)
  /\ ((len (lit "Bbbbbbbb.") <= 6)%Z
      \/ (exists part,
            In part (paragraphs three_sentences) /\ (6 < len part)%Z
            /\ In (lit "Bbbbbbbb.") (sentences_of part)
            /\ (6 < len (lit "Bbbbbbbb."))%Z)
      \/ (nonws three_sentences = []
          /\ split_text three_sentences 6 = [three_sentences]
          /\ lit "Bbbbbbbb." = three_sentences)).
Proof.
  assert (H : In (lit "Bbbbbbbb.") (split_text three_sentences 6))
    by (vm_compute; right; left; reflexivity).
  split; [exact H|]. exact (split_text_chunk_bound _ _ _ H).
Defined.

Example split_text_three_sentences :
  split_text three_sentences 6 = [lit "Aaa."; lit "Bbbbbbbb."; lit "Cc."].
Proof. vm_compute. reflexivity. Qed.

(** C3: the chunks of [split_text], concatenated, have the non-whitespace
    characters of the text, each once and in the order of the text. *)
Theorem split_text_preserves_nonws (text : str) (max_length : Z) :
  nonws (concat (split_text text max_length)) = nonws text.
Proof.
  unfold split_text.
  pose proof (nonws_final_parts text max_length) as H.
  destruct (parts_loop max_length (paragraphs text) []) as [|c0 fp];
    cbn [truthy]; [|exact H].
  simpl. rewrite app_nil_r. reflexivity.
Qed.

(** C6: on a non-empty text, whitespace-only or not, [split_text] returns
    at least one chunk. *)
Theorem split_text_nonempty (text : str) (max_length : Z) :
  text <> [] -> split_text text max_length <> [].
Proof.
  intros _. unfold split_text.
  destruct (truthy (parts_loop max_length (paragraphs text) [])) eqn:E.
  - apply truthy_true, E.
  - discriminate.
Qed.

Lemma split_text_nonempty_witness :
  [SP; NL; SP] <> [] /\ split_text [SP; NL; SP] default_max_length <> [].
Proof.
  split; [discriminate|]. apply (split_text_nonempty [SP; NL; SP]). discriminate.
Defined.

(** C10: on a text with a non-whitespace character, every chunk of
    [split_text] is non-empty and is its own [strip()]. *)
Theorem split_text_chunks_stripped (text : str) (max_length : Z) (chunk : str) :
  nonws text <> [] ->
  In chunk (split_text text max_length) ->
  chunk <> [] /\ strip chunk = chunk.
Proof.
  intros Htext.
  assert (HQ : Forall tidy (parts_loop max_length (paragraphs text) [])).
  { apply parts_loop_invariant; [| | |constructor].
    - intros part Hp _. apply (paragraphs_tidy text), Hp.
    - intros part s _ _ Hs.
      pose proof (sentences_of_tidy part) as H. rewrite Forall_forall in H.
      apply H, Hs.
    - intros part cp s _ _ [_ Hcp] Hs Hne _.
      pose proof (sentences_of_tidy part) as H. rewrite Forall_forall in H.
      destruct (H s Hs) as [Hsne Hst]. split.
      + destruct cp; [congruence | discriminate].
      + apply trimmed_join; assumption. }
  unfold split_text.
  destruct (parts_loop max_length (paragraphs text) []) as [|c0 fp] eqn:E;
    cbn [truthy]; intros Hin.
  - exfalso. apply Htext, (fallback_only_blank text max_length), E.
  - rewrite Forall_forall in HQ. destruct (HQ chunk Hin) as [Hne Htr].
    split; [exact Hne | apply strip_trimmed, Htr].
Qed.

Lemma split_text_chunks_stripped_witness :
  nonws two_paragraphs <> []
  /\ In (lit "Dogs are big.") (split_text two_paragraphs default_max_length)
  /\ lit "Dogs are big." <> []
  /\ strip (lit "Dogs are big.") = lit "Dogs are big.".
Proof.
  assert (H1 : nonws two_paragraphs <> []) by (vm_compute; discriminate).
  assert (H2 : In (lit "Dogs are big.")
                 (split_text two_paragraphs default_max_length))
    by (vm_compute; right; left; reflexivity).
  split; [exact H1|]. split; [exact H2|].
  exact (split_text_chunks_stripped _ _ _ H1 H2).
Defined.

End SegmenterFacts.

(** ** The Matcher *)

Module MatcherFacts.
Import Matcher.

(** *** Substring search *)

Lemma starts_with_spec (w : str) :
  forall s, starts_with s w = true <-> exists post, s = w ++ post.
Proof.
  induction w as [|a w IH]; intros s.
  - destruct s; simpl; split; eauto.
  - destruct s as [|b s]; simpl.
    + split; [discriminate | intros [post E]; discriminate].
    + rewrite andb_true_iff, N.eqb_eq, IH. split.
      * intros [-> [post ->]]. exists post. reflexivity.
      * intros [post E]. injection E as -> ->. eauto.
Qed.

Lemma contains_spec (w s : str) : contains s w = true <-> substring w s.
Proof.
  unfold substring. induction s as [|b s IH]; cbn [contains].
  - rewrite orb_false_r, starts_with_spec. split.
    + intros [post E]. exists [], post. exact E.
    + intros [[|c pre] [post E]]; [exists post; exact E | discriminate].
  - rewrite orb_true_iff, (starts_with_spec w (b :: s)), IH. split.
    + intros [[post E] | [pre [post E]]].
      * exists [], post. exact E.
      * exists (b :: pre), post. simpl. rewrite E. reflexivity.
    + intros [[|c pre] [post E]].
      * left. exists post. exact E.
      * right. injection E as _ E. eauto.
Qed.

Lemma contains_false (w s : str) : contains s w = false <-> ~ substring w s.
Proof.
  rewrite <- contains_spec. destruct (contains s w); split; congruence.
Qed.

Section WithLower.

Variable lower : str -> str.

Abbreviation question_words := (question_words lower).
Abbreviation score_of := (score_of lower).
Abbreviation scan := (scan lower).
Abbreviation find_answer := (find_answer lower).

(** *** Keywords *)

(** Filtering on the stripped length and stripping, or stripping and
    filtering on the length: the same list. *)
Lemma question_words_tokens (question : str) :
  question_words question = keyword_tokens lower question.
Proof.
  unfold Matcher.question_words, keyword_tokens.
  induction (split_ws (lower question)) as [|w l IH]; [reflexivity|].
  simpl. destruct (2 <? len (strip_chars punctuation w))%Z; simpl; congruence.
Qed.

(** *** The score of a part *)

Lemma score_loop_hits (part_lower : str) (words : list str) :
  forall score,
    score_loop part_lower words score = (score + hits words part_lower)%Z.
Proof.
  unfold hits. induction words as [|w rest IH]; intros score; simpl.
  - lia.
  - rewrite IH. destruct (contains part_lower w); simpl length; lia.
Qed.

Lemma score_of_hits (words : list str) (part : str) :
  score_of words part = hits words (lower part).
Proof. unfold Matcher.score_of. rewrite score_loop_hits. lia. Qed.

Lemma score_of_nonneg (words : list str) (part : str) :
  (0 <= score_of words part)%Z.
Proof. rewrite score_of_hits. unfold hits. lia. Qed.

Lemma score_of_zero (words : list str) (part : str) :
  (forall w, In w words -> ~ substring w (lower part)) ->
  score_of words part = 0%Z.
Proof.
  intros H. rewrite score_of_hits. unfold hits.
  replace (filter (contains (lower part)) words) with (@nil str); [reflexivity|].
  symmetry. induction words as [|w rest IH]; [reflexivity|]. simpl.
  rewrite (proj2 (contains_false w (lower part))) by (apply H; simpl; auto).
  apply IH. intros; apply H; simpl; auto.
Qed.

(** *** The scan over the parts *)

Lemma scan_not_above (words : list str) (parts : list str) :
  forall best_match best_score,
    (forall p, In p parts -> (score_of words p <= best_score)%Z) ->
    scan words parts best_match best_score = (best_match, best_score).
Proof.
  induction parts as [|p rest IH]; intros bm bs H; [reflexivity|].
  cbn [Matcher.scan].
  destruct (Z.ltb_spec bs (score_of words p)) as [Hlt | Hge].
  - specialize (H p (or_introl eq_refl)). lia.
  - apply IH. intros; apply H; simpl; auto.
Qed.

Lemma scan_below (words : list str) (bound : Z) (pre rest : list str) :
  (forall p, In p pre -> (score_of words p < bound)%Z) ->
  forall best_match best_score,
    (best_score < bound)%Z ->
    exists best_match' best_score',
      (best_score' < bound)%Z
      /\ scan words (pre ++ rest) best_match best_score
         = scan words rest best_match' best_score'.
Proof.
  induction pre as [|p pre IH]; intros H bm bs Hbs.
  - exists bm, bs. auto.
  - assert (Hpre : forall q, In q pre -> (score_of words q < bound)%Z)
      by (intros; apply H; simpl; auto).
    cbn [app Matcher.scan]. destruct (bs <? score_of words p)%Z.
    + apply (IH Hpre). apply H. simpl. auto.
    + apply (IH Hpre). exact Hbs.
Qed.

(** *** The answer *)

(** C1 (amended): the score of a chunk is the number of keyword tokens of
    the question, each repetition of a token counted, that occur as
    substrings of the lowered chunk; the keyword tokens are the tokens of
    the lowered question, stripped of edge punctuation, of stripped length
    above 2. *)
Theorem score_counts_keyword_tokens (question part : str) :
  question_words question = keyword_tokens lower question
  /\ score_of (question_words question) part
     = Z.of_nat
         (length (filter (contains (lower part)) (keyword_tokens lower question)))
  /\ (forall w, contains (lower part) w = true <-> substring w (lower part)).
Proof.
  split; [apply question_words_tokens|]. split.
  - rewrite score_of_hits, question_words_tokens. reflexivity.
  - intros w. apply contains_spec.
Qed.

(** Where no token is repeated, that is the number of distinct keywords. *)
Lemma score_distinct_without_repeats (question part : str) :
  NoDup (question_words question) ->
  score_of (question_words question) part
  = hits (nodup str_eq_dec (question_words question)) (lower part).
Proof.
  intros H. rewrite (nodup_fixed_point str_eq_dec H). apply score_of_hits.
Qed.

(** C4: with a keyword in the question, the chunk that is first to reach
    the maximum score, when that score is positive, is returned with its
    score: the chunks before it score less, those after it no more. *)
Theorem find_answer_first_max (question : str) (pre : list str) (chunk : str)
    (post : list str) :
  question_words question <> [] ->
  (0 < score_of (question_words question) chunk)%Z ->
  (forall p, In p pre ->
     (score_of (question_words question) p
      < score_of (question_words question) chunk)%Z) ->
  (forall p, In p post ->
     (score_of (question_words question) p
      <= score_of (question_words question) chunk)%Z) ->
  find_answer question (pre ++ chunk :: post)
  = Ok (chunk, score_of (question_words question) chunk).
Proof.
  intros Hwords Hpos Hpre Hpost. unfold Matcher.find_answer.
  apply truthy_true in Hwords. rewrite Hwords. cbn [negb].
  destruct (scan_below (question_words question) _ pre (chunk :: post)
              Hpre [] 0%Z Hpos) as [bm [bs [Hbs ->]]].
  cbn [Matcher.scan]. apply Z.ltb_lt in Hbs. rewrite Hbs.
  rewrite (scan_not_above _ post _ _ Hpost).
  destruct (Z.eqb_spec (score_of (question_words question) chunk) 0); [lia|].
  reflexivity.
Qed.

(** C5: with a keyword in the question and no keyword occurring in any
    chunk of a non-empty list, the answer is the no-match message followed
    by the first 500 characters of the first chunk, with score 0. *)
Theorem find_answer_no_match (question : str) (first : str) (rest : list str) :
  question_words question <> [] ->
  (forall p w, In p (first :: rest) -> In w (question_words question) ->
     ~ substring w (lower p)) ->
  find_answer question (first :: rest)
  = Ok (no_match_message ++ firstn 500 first, 0%Z).
Proof.
  intros Hwords Hnone. unfold Matcher.find_answer.
  apply truthy_true in Hwords. rewrite Hwords. cbn [negb].
  rewrite scan_not_above.
  - reflexivity.
  - intros p Hp. rewrite score_of_zero; [lia|].
    intros w Hw. apply Hnone; assumption.
Qed.

(** C8: on a non-empty chunk list [find_answer] returns a pair; the read of
    [text_parts[0]] in the zero-score branch is then in range. *)
Theorem find_answer_returns (question : str) (text_parts : list str) :
  text_parts <> [] ->
  exists answer score, find_answer question text_parts = Ok (answer, score).
Proof.
  intros Hne. unfold Matcher.find_answer.
  destruct (negb (truthy (question_words question))); [eauto|].
  destruct (scan (question_words question) text_parts [] 0%Z) as [bm bs].
  destruct (bs =? 0)%Z; [|eauto].
  destruct text_parts as [|first rest]; [congruence | eauto].
Qed.

(** The out-of-range read is real on the empty list. *)
Lemma find_answer_empty_list (question : str) :
  question_words question <> [] -> find_answer question [] = IndexError.
Proof.
  intros Hwords. unfold Matcher.find_answer.
  apply truthy_true in Hwords. rewrite Hwords. reflexivity.
Qed.

End WithLower.

(** C1, as the claim states it, fails: in "dogs dogs" the keyword "dogs"
    is one distinct keyword and two tokens, and the chunk "dogs" scores 2. *)
Lemma score_distinct_counterexample :
  ~ (forall (lower : str -> str) (question part : str),
       score_of lower (question_words lower question) part
       = Z.of_nat
           (length
              (filter (contains (lower part))
                 (nodup str_eq_dec (keyword_tokens lower question))))).
Proof.
  intros H. specialize (H simple_lower (lit "dogs dogs") (lit "dogs")).
  vm_compute in H. discriminate.
Qed.

Example score_repeated_token :
  question_words simple_lower (lit "dogs dogs") = [lit "dogs"; lit "dogs"]
  /\ score_of simple_lower (question_words simple_lower (lit "dogs dogs"))
       (lit "dogs") = 2%Z.
Proof. vm_compute. auto. Qed.

Lemma find_answer_first_max_witness :
  find_answer simple_lower (lit "What do dogs do?")
    ([lit "Cats are small."] ++ lit "Dogs are big." :: [lit "Dogs bark."])
  = Ok (lit "Dogs are big.",
        score_of simple_lower
          (question_words simple_lower (lit "What do dogs do?"))
          (lit "Dogs are big.")).
Proof.
  apply (find_answer_first_max simple_lower).
  - vm_compute. discriminate.
  - vm_compute. reflexivity.
  - intros p [<- | []]. vm_compute. reflexivity.
  - intros p [<- | []]. vm_compute. discriminate.
Defined.

Lemma find_answer_no_match_witness :
  find_answer simple_lower (lit "xyz abc")
    [lit "Cats are small."; lit "Dogs are big."]
  = Ok (no_match_message ++ firstn 500 (lit "Cats are small."), 0%Z).
Proof.
  apply (find_answer_no_match simple_lower).
  - vm_compute. discriminate.
  - intros p w Hp Hw. apply contains_false.
    destruct Hp as [<- | [<- | []]];
      vm_compute in Hw; destruct Hw as [<- | [<- | []]];
      vm_compute; reflexivity.
Defined.

Lemma find_answer_returns_witness :
  [lit "Cats are small."] <> []
  /\ exists answer score,
       find_answer simple_lower (lit "xyz abc") [lit "Cats are small."]
       = Ok (answer, score).
Proof.
  split; [discriminate|].
  apply (find_answer_returns simple_lower). discriminate.
Defined.

(** There the question has two keywords and no chunk has either: the
    zero-score branch is taken and [text_parts[0]] is read. *)
Example find_answer_reads_first_chunk :
  question_words simple_lower (lit "xyz abc") = [lit "xyz"; lit "abc"]
  /\ find_answer simple_lower (lit "xyz abc") [lit "Cats are small."]
     = Ok (no_match_message ++ lit "Cats are small.", 0%Z)
  /\ find_answer simple_lower (lit "xyz abc") [] = IndexError.
Proof. vm_compute. auto. Qed.

End MatcherFacts.

(** ** The Presenter *)

Module PresenterFacts.
Import Presenter.

Lemma slice_to_nonneg (s : str) (n : Z) :
  (0 <= n)%Z -> slice_to s n = firstn (Z.to_nat n) s.
Proof. intros H. unfold slice_to. apply Z.leb_le in H. rewrite H. reflexivity. Qed.

(** C7: a text no longer than [max_display_length] is returned as it is,
    and formatting it again changes nothing. *)
Theorem format_answer_short (x : str) (max_display_length : Z) :
  (len x <= max_display_length)%Z ->
  format_answer x max_display_length = x
  /\ format_answer (format_answer x max_display_length) max_display_length
     = format_answer x max_display_length.
Proof.
  intros H. apply Z.leb_le in H.
  assert (E : format_answer x max_display_length = x)
    by (unfold format_answer; rewrite H; reflexivity).
  rewrite !E. auto.
Qed.

Lemma format_answer_short_witness :
  format_answer (lit "Dogs are big.") default_max_display_length
  = lit "Dogs are big."
  /\ format_answer
       (format_answer (lit "Dogs are big.") default_max_display_length)
       default_max_display_length
     = format_answer (lit "Dogs are big.") default_max_display_length.
Proof. apply format_answer_short. vm_compute. discriminate. Defined.

(** C9: for [max_display_length >= 0] the output is at most
    [max_display_length] plus the length of the truncation marker long,
    and a longer input gives its first [max_display_length] characters
    followed by the marker. *)
Theorem format_answer_bound (x : str) (max_display_length : Z) :
  (0 <= max_display_length)%Z ->
  (len (format_answer x max_display_length)
   <= max_display_length + len truncation_marker)%Z
  /\ ((max_display_length < len x)%Z ->
      format_answer x max_display_length
      = firstn (Z.to_nat max_display_length) x ++ truncation_marker).
Proof.
  intros Hm. unfold format_answer.
  destruct (Z.leb_spec (len x) max_display_length) as [Hle | Hgt].
  - split; [|lia]. change (len truncation_marker) with 25%Z. lia.
  - rewrite slice_to_nonneg by exact Hm. split; [|reflexivity].
    unfold len in *. rewrite length_app, length_firstn. lia.
Qed.

Lemma format_answer_bound_witness :
  (len (format_answer (lit "Dogs are big.") 4) <= 4 + len truncation_marker)%Z
  /\ ((4 < len (lit "Dogs are big."))%Z ->
      format_answer (lit "Dogs are big.") 4
      = firstn (Z.to_nat 4) (lit "Dogs are big.") ++ truncation_marker).
Proof. apply format_answer_bound. vm_compute. discriminate. Defined.

Example format_answer_truncates :
  format_answer (lit "Dogs are big.") 4 = lit "Dogs" ++ truncation_marker.
Proof. vm_compute. reflexivity. Qed.

End PresenterFacts.

(** ** More on the Segmenter *)

Module SegmenterMore.
Import Segmenter SegmenterFacts.

Lemma tidy_nonws (s : str) : tidy s -> nonws s <> [].
Proof.
  intros [Hne [Hhead _]]. destruct s as [|c s]; [congruence|].
  simpl in Hhead. unfold nonws. simpl. rewrite Hhead. discriminate.
Qed.

Lemma paragraphs_blank (text : str) : nonws text = [] -> paragraphs text = [].
Proof.
  intros Hblank. pose proof (nonws_paragraphs text) as H.
  destruct (paragraphs text) as [|part rest] eqn:E; [reflexivity|].
  exfalso. apply (tidy_nonws part).
  - apply (paragraphs_tidy text). rewrite E. simpl. auto.
  - simpl in H. rewrite nonws_app, Hblank in H.
    apply app_eq_nil in H. tauto.
Qed.

Lemma paragraphs_some (text : str) : nonws text <> [] -> paragraphs text <> [].
Proof.
  intros H E. apply H. rewrite <- nonws_paragraphs, E. reflexivity.
Qed.

Lemma final_parts_tidy (text : str) (max_length : Z) :
  Forall tidy (parts_loop max_length (paragraphs text) []).
Proof.
  apply parts_loop_invariant; [| | |constructor].
  - intros part Hp _. apply (paragraphs_tidy text), Hp.
  - intros part s _ _ Hs.
    pose proof (sentences_of_tidy part) as H. rewrite Forall_forall in H.
    apply H, Hs.
  - intros part cp s _ _ [_ Hcp] Hs Hne _.
    pose proof (sentences_of_tidy part) as H. rewrite Forall_forall in H.
    destruct (H s Hs) as [Hsne Hst]. split.
    + destruct cp; [congruence | discriminate].
    + apply trimmed_join; assumption.
Qed.

(** X1: a text without a non-whitespace character, the empty text among
    them, comes back whole as the only chunk, whatever [max_length]. *)
Theorem split_text_blank (text : str) (max_length : Z) :
  nonws text = [] -> split_text text max_length = [text].
Proof.
  intros H. unfold split_text. rewrite (paragraphs_blank text H). reflexivity.
Qed.

Lemma split_text_blank_witness :
  split_text [SP; NL; NL; SP] 1 = [[SP; NL; NL; SP]].
Proof. apply split_text_blank. reflexivity. Defined.

Lemma parts_loop_short (max_length : Z) (parts : list str) :
  (forall part, In part parts -> (len part <= max_length)%Z) ->
  forall final_parts,
    parts_loop max_length parts final_parts = final_parts ++ parts.
Proof.
  induction parts as [|part rest IH]; intros H fp.
  - simpl. rewrite app_nil_r. reflexivity.
  - cbn [parts_loop].
    rewrite (proj2 (Z.leb_le _ _) (H part (or_introl eq_refl))).
    rewrite IH by (intros; apply H; simpl; auto).
    rewrite <- app_assoc. reflexivity.
Qed.

(** X2: when the text has a non-whitespace character and every paragraph
    fits [max_length], the chunks are the paragraphs: the pieces between
    blank lines, stripped, the empty ones dropped. *)
Theorem split_text_paragraphs (text : str) (max_length : Z) :
  nonws text <> [] ->
  (forall part, In part (paragraphs text) -> (len part <= max_length)%Z) ->
  split_text text max_length = paragraphs text.
Proof.
  intros Htext Hfit. unfold split_text.
  rewrite (parts_loop_short _ _ Hfit). simpl.
  apply paragraphs_some in Htext.
  destruct (paragraphs text); [congruence | reflexivity].
Qed.

Lemma split_text_paragraphs_witness :
  split_text two_paragraphs default_max_length = paragraphs two_paragraphs.
Proof.
  apply split_text_paragraphs.
  - vm_compute. discriminate.
  - intros part Hp. vm_compute in Hp.
    destruct Hp as [<- | [<- | []]]; vm_compute; discriminate.
Defined.

(** *** The chunks of a text are those of its paragraphs *)

Lemma pack_loop_acc (max_length : Z) (sentences : list str) :
  forall final_parts current_part,
    pack_loop max_length sentences final_parts current_part
    = (final_parts ++ fst (pack_loop max_length sentences [] current_part),
       snd (pack_loop max_length sentences [] current_part)).
Proof.
  induction sentences as [|s rest IH]; intros fp cp.
  - simpl. rewrite app_nil_r. reflexivity.
  - cbn [pack_loop].
    destruct (len cp + len s + 1 <=? max_length)%Z; [apply IH|].
    rewrite (IH (if truthy cp then fp ++ [cp] else fp) s).
    rewrite (IH (if truthy cp then [] ++ [cp] else []) s).
    cbn [fst snd]. destruct cp; cbn [truthy]; [reflexivity|].
    rewrite <- app_assoc. reflexivity.
Qed.

Lemma packed_acc (max_length : Z) (sentences : list str)
    (final_parts : list str) (current_part : str) :
  packed max_length sentences final_parts current_part
  = final_parts ++ packed max_length sentences [] current_part.
Proof.
  unfold packed. rewrite pack_loop_acc.
  destruct (pack_loop max_length sentences [] current_part) as [fp cp].
  cbn [fst snd]. unfold flush. destruct cp; cbn [truthy].
  - reflexivity.
  - rewrite <- app_assoc. reflexivity.
Qed.

Lemma parts_loop_step (max_length : Z) (part : str) (rest : list str)
    (final_parts : list str) :
  parts_loop max_length (part :: rest) final_parts
  = parts_loop max_length rest
      (if (len part <=? max_length)%Z then final_parts ++ [part]
       else packed max_length (sentences_of part) final_parts []).
Proof.
  cbn [parts_loop]. unfold packed, flush.
  destruct (len part <=? max_length)%Z; [reflexivity|].
  destruct (pack_loop max_length (sentences_of part) final_parts []).
  reflexivity.
Qed.

Lemma part_chunks_eq (max_length : Z) (part : str) :
  part_chunks max_length part
  = if (len part <=? max_length)%Z then [part]
    else packed max_length (sentences_of part) [] [].
Proof.
  unfold part_chunks. rewrite parts_loop_step. cbn [parts_loop].
  destruct (len part <=? max_length)%Z; reflexivity.
Qed.

Lemma parts_loop_flat_map (max_length : Z) (parts : list str) :
  forall final_parts,
    parts_loop max_length parts final_parts
    = final_parts ++ flat_map (part_chunks max_length) parts.
Proof.
  induction parts as [|part rest IH]; intros fp.
  - simpl. rewrite app_nil_r. reflexivity.
  - rewrite parts_loop_step, IH. cbn [flat_map].
    rewrite part_chunks_eq.
    destruct (len part <=? max_length)%Z.
    + rewrite <- app_assoc. reflexivity.
    + rewrite packed_acc, <- app_assoc. reflexivity.
Qed.

(** X3: the chunks of a text with a non-whitespace character are the
    chunks of its first paragraph, then those of the second, and so on: no
    chunk holds text of two paragraphs, and what a paragraph gives does not
    depend on the others. *)
Theorem split_text_by_paragraph (text : str) (max_length : Z) :
  nonws text <> [] ->
  split_text text max_length
  = flat_map (part_chunks max_length) (paragraphs text).
Proof.
  intros Htext. unfold split_text.
  pose proof (nonws_final_parts text max_length) as H.
  rewrite parts_loop_flat_map in *. cbn [app] in *.
  destruct (flat_map (part_chunks max_length) (paragraphs text));
    [|reflexivity].
  exfalso. apply Htext. rewrite <- H. reflexivity.
Qed.

Lemma split_text_by_paragraph_witness :
  split_text two_paragraphs 6
  = flat_map (part_chunks 6) (paragraphs two_paragraphs).
Proof. apply split_text_by_paragraph. vm_compute. discriminate. Defined.

(** *** Packing keeps the sentences, in order, a space between them *)

Lemma join_sp_cons (x : str) (l : list str) :
  l <> [] -> join_sp (x :: l) = x ++ [SP] ++ join_sp l.
Proof. destruct l; [congruence | reflexivity]. Qed.

Lemma join_sp_merge (a : list str) (x y : str) (r : list str) :
  join_sp (a ++ (x ++ [SP] ++ y) :: r) = join_sp (a ++ x :: y :: r).
Proof.
  induction a as [|z a IH].
  - cbn [app]. rewrite (join_sp_cons x (y :: r)) by discriminate.
    destruct r as [|w r].
    + reflexivity.
    + rewrite !join_sp_cons by discriminate.
      rewrite <- !app_assoc. reflexivity.
  - rewrite <- !(app_comm_cons a).
    rewrite !join_sp_cons by (destruct a; discriminate).
    rewrite IH. reflexivity.
Qed.

Lemma packed_join (max_length : Z) (sentences : list str) :
  Forall (fun s => s <> []) sentences ->
  forall final_parts current_part,
    join_sp (packed max_length sentences final_parts current_part)
    = join_sp (flush final_parts current_part ++ sentences).
Proof.
  unfold packed.
  induction sentences as [|s rest IH]; intros Hne fp cp.
  - simpl. rewrite app_nil_r. reflexivity.
  - inversion Hne as [|? ? Hs Hrest]; subst.
    cbn [pack_loop].
    destruct (len cp + len s + 1 <=? max_length)%Z; rewrite (IH Hrest).
    + destruct cp as [|c cp]; unfold flush; cbn [truthy].
      * destruct s; [congruence|]. cbn [truthy].
        rewrite <- app_assoc. reflexivity.
      * replace (truthy ((c :: cp) ++ [SP] ++ s)) with true by reflexivity.
        rewrite <- !app_assoc. cbn [app]. apply (join_sp_merge fp (c :: cp) s).
    + unfold flush at 1. destruct s as [|c0 s]; [congruence|]. cbn [truthy].
      rewrite <- app_assoc. reflexivity.
Qed.

Lemma sentences_nonempty (part : str) :
  Forall (fun s => s <> []) (sentences_of part).
Proof.
  pose proof (sentences_of_tidy part) as H.
  rewrite Forall_forall in *. intros s Hs. apply (H s Hs).
Qed.

(** X4: for a paragraph longer than [max_length], joining its chunks with
    single spaces gives its sentence units joined with single spaces: the
    packing drops, repeats and reorders no sentence, and puts one space
    between two sentences of a chunk. *)
Theorem part_chunks_join (max_length : Z) (part : str) :
  (max_length < len part)%Z ->
  join_sp (part_chunks max_length part) = join_sp (sentences_of part).
Proof.
  intros Hlong. rewrite part_chunks_eq.
  apply Z.leb_gt in Hlong. rewrite Hlong.
  rewrite packed_join by apply sentences_nonempty. reflexivity.
Qed.

Lemma part_chunks_join_witness :
  join_sp (part_chunks 13 three_sentences) = join_sp (sentences_of three_sentences).
Proof. apply part_chunks_join. vm_compute. reflexivity. Defined.

Example part_chunks_three_sentences :
  part_chunks 13 three_sentences = [lit "Aaa."; lit "Bbbbbbbb. Cc."].
Proof. vm_compute. reflexivity. Qed.

(** *** A sentence longer than [max_length] is a chunk of its own *)

Lemma len_nonneg (s : str) : (0 <= len s)%Z.
Proof. unfold len. lia. Qed.

Lemma packed_keeps (max_length : Z) (sentences : list str) (x : str) :
  forall final_parts current_part,
    In x final_parts ->
    In x (packed max_length sentences final_parts current_part).
Proof.
  intros fp cp H. rewrite packed_acc. apply in_or_app. left. exact H.
Qed.

Lemma packed_step (max_length : Z) (s : str) (rest : list str)
    (final_parts : list str) (current_part : str) :
  packed max_length (s :: rest) final_parts current_part
  = if (len current_part + len s + 1 <=? max_length)%Z
    then packed max_length rest final_parts
           (if truthy current_part then current_part ++ [SP] ++ s else s)
    else packed max_length rest (flush final_parts current_part) s.
Proof.
  unfold packed. cbn [pack_loop].
  destruct (len current_part + len s + 1 <=? max_length)%Z; reflexivity.
Qed.

Lemma packed_flushes_long (max_length : Z) (sentences : list str) :
  forall final_parts current_part,
    current_part <> [] -> (max_length < len current_part)%Z ->
    In current_part (packed max_length sentences final_parts current_part).
Proof.
  destruct sentences as [|s rest]; intros fp cp Hne Hlong.
  - unfold packed, flush. simpl. apply truthy_true in Hne. rewrite Hne.
    apply in_or_app. right. simpl. auto.
  - rewrite packed_step.
    destruct (Z.leb_spec (len cp + len s + 1) max_length) as [Hfit | _].
    + pose proof (len_nonneg s). lia.
    + apply packed_keeps. unfold flush. apply truthy_true in Hne. rewrite Hne.
      apply in_or_app. right. simpl. auto.
Qed.

Lemma packed_emits_long (max_length : Z) (x : str) (sentences : list str) :
  x <> [] -> (max_length < len x)%Z ->
  forall final_parts current_part,
    In x sentences ->
    In x (packed max_length sentences final_parts current_part).
Proof.
  intros Hne Hlong.
  induction sentences as [|s rest IH]; intros fp cp Hin; [destruct Hin|].
  rewrite packed_step. destruct Hin as [-> | Hin].
  - destruct (Z.leb_spec (len cp + len x + 1) max_length) as [Hfit | _].
    + pose proof (len_nonneg cp). lia.
    + apply packed_flushes_long; assumption.
  - destruct (len cp + len s + 1 <=? max_length)%Z; apply IH, Hin.
Qed.

(** X5: a sentence unit longer than [max_length], in a paragraph longer
    than [max_length], is itself one of the chunks: it is joined to no
    neighbour and is not cut. *)
Theorem long_sentence_is_chunk (max_length : Z) (part sentence : str) :
  (max_length < len part)%Z ->
  In sentence (sentences_of part) ->
  (max_length < len sentence)%Z ->
  In sentence (part_chunks max_length part).
Proof.
  intros Hpart Hin Hlong. rewrite part_chunks_eq.
  apply Z.leb_gt in Hpart. rewrite Hpart.
  apply packed_emits_long; [|exact Hlong|exact Hin].
  pose proof (sentences_nonempty part) as H. rewrite Forall_forall in H.
  apply H, Hin.
Qed.

Lemma long_sentence_is_chunk_witness :
  In (lit "Bbbbbbbb.") (part_chunks 6 three_sentences).
Proof.
  apply long_sentence_is_chunk.
  - vm_compute. reflexivity.
  - vm_compute. right. left. reflexivity.
  - vm_compute. reflexivity.
Defined.

(** *** A sentence unit ends at its first terminal *)

Lemma lstrip_by_snoc (p : char -> bool) (a : str) (c : char) :
  p c = false -> lstrip_by p (a ++ [c]) = lstrip_by p a ++ [c].
Proof.
  intros Hc. induction a as [|b a IH]; simpl.
  - rewrite Hc. reflexivity.
  - destruct (p b); [exact IH | reflexivity].
Qed.

Lemma rstrip_by_snoc (p : char -> bool) (a : str) (c : char) :
  p c = false -> rstrip_by p (a ++ [c]) = a ++ [c].
Proof.
  intros Hc. unfold rstrip_by. rewrite rev_app_distr. simpl. rewrite Hc.
  simpl. rewrite rev_involutive. reflexivity.
Qed.

Lemma strip_snoc (current : str) (c : char) :
  is_space c = false -> strip (current ++ [c]) = lstrip_by is_space current ++ [c].
Proof.
  intros Hc. unfold strip, strip_by.
  rewrite (lstrip_by_snoc _ _ _ Hc). apply rstrip_by_snoc, Hc.
Qed.

Lemma no_terminal_app (a b : str) :
  no_terminal (a ++ b) = no_terminal a && no_terminal b.
Proof. apply forallb_app. Qed.

Lemma no_terminal_lstrip (s : str) :
  no_terminal s = true -> no_terminal (lstrip_by is_space s) = true.
Proof.
  destruct (lstrip_by_split is_space s) as [pre [E _]]. intros H.
  rewrite E, no_terminal_app in H. apply andb_true_iff in H. tauto.
Qed.

Lemma no_terminal_strip (s : str) :
  no_terminal s = true -> no_terminal (strip s) = true.
Proof.
  destruct (strip_by_split is_space s) as [pre [post [E _]]]. intros H.
  fold (strip s) in E. rewrite E, !no_terminal_app in H.
  rewrite !andb_true_iff in H. tauto.
Qed.

Lemma sentence_loop_terminals (part : str) :
  forall sentences current,
    Forall terminal_only_last sentences -> no_terminal current = true ->
    Forall terminal_only_last (fst (sentence_loop part sentences current))
    /\ no_terminal (snd (sentence_loop part sentences current)) = true.
Proof.
  induction part as [|c rest IH]; intros sentences current Hs Hc; [auto|].
  cbn [sentence_loop]. destruct (is_terminal c) eqn:Ht.
  - apply IH; [|reflexivity]. apply Forall_app. split; [exact Hs|].
    constructor; [|constructor].
    exists (lstrip_by is_space current), c. split.
    + apply strip_snoc, terminal_not_space, Ht.
    + apply no_terminal_lstrip, Hc.
  - apply IH; [exact Hs|]. rewrite no_terminal_app, Hc. simpl.
    rewrite Ht. reflexivity.
Qed.

(** X6: in a sentence unit no character but the last is one of [. ! ?]:
    a unit ends at its first terminal. *)
Theorem sentence_ends_at_terminal (part sentence : str) :
  In sentence (sentences_of part) -> terminal_only_last sentence.
Proof.
  unfold sentences_of.
  destruct (sentence_loop_terminals part [] [] (Forall_nil _) eq_refl)
    as [Hs Hc].
  destruct (sentence_loop part [] []) as [sentences current].
  cbn [fst snd] in Hs, Hc. rewrite Forall_forall in Hs.
  destruct (truthy (strip current)) eqn:E; [|apply Hs].
  intros Hin. apply in_app_or in Hin as [Hin | [<- | []]]; [apply Hs, Hin|].
  apply truthy_true in E. apply no_terminal_strip in Hc.
  destruct (exists_last E) as [body [last Elast]].
  exists body, last. split; [exact Elast|].
  rewrite Elast, no_terminal_app in Hc. apply andb_true_iff in Hc. tauto.
Qed.

Lemma sentence_ends_at_terminal_witness :
  terminal_only_last (lit "Bbbbbbbb.").
Proof.
  apply (sentence_ends_at_terminal three_sentences).
  vm_compute. right. left. reflexivity.
Defined.

End SegmenterMore.

(** ** More on the Matcher *)

Module MatcherMore.
Import Matcher MatcherFacts.

(** *** The pieces of [split()] and of [strip(chars)] *)

Lemma substring_refl (s : str) : substring s s.
Proof. exists [], []. rewrite app_nil_r. reflexivity. Qed.

Lemma substring_trans (a b c : str) :
  substring a b -> substring b c -> substring a c.
Proof.
  intros [p1 [q1 E1]] [p2 [q2 E2]]. exists (p2 ++ p1), (q1 ++ q2).
  rewrite E2, E1, <- !app_assoc. reflexivity.
Qed.

Lemma substring_strip_by (p : char -> bool) (s : str) :
  substring (strip_by p s) s.
Proof.
  destruct (strip_by_split p s) as [pre [post [E _]]]. exists pre, post. exact E.
Qed.

Lemma no_space_app (a b : str) : no_space (a ++ b) = no_space a && no_space b.
Proof. apply forallb_app. Qed.

Lemma no_space_substring (w s : str) :
  substring w s -> no_space s = true -> no_space w = true.
Proof.
  intros [pre [post E]] H. rewrite E, !no_space_app in H.
  rewrite !andb_true_iff in H. tauto.
Qed.

Lemma split_ws_from_pieces (s : str) :
  forall cur w,
    no_space cur = true -> In w (split_ws_from cur s) ->
    w <> [] /\ no_space w = true /\ substring w (cur ++ s).
Proof.
  induction s as [|c s IH]; intros cur w Hcur Hin.
  - simpl in Hin. destruct cur as [|c0 cur]; simpl in Hin; [destruct Hin|].
    destruct Hin as [<- | []]. rewrite app_nil_r.
    split; [discriminate|]. split; [exact Hcur | apply substring_refl].
  - cbn [split_ws_from] in Hin. destruct (is_space c) eqn:Hc.
    + assert (Hrest : In w (split_ws_from [] s) ->
                w <> [] /\ no_space w = true /\ substring w (cur ++ c :: s)).
      { intros H. destruct (IH [] w eq_refl H) as [H1 [H2 [pre [post E]]]].
        split; [exact H1|]. split; [exact H2|].
        exists (cur ++ c :: pre), post. simpl in E. rewrite E, <- app_assoc.
        reflexivity. }
      destruct cur as [|c0 cur]; cbn [truthy] in Hin; [exact (Hrest Hin)|].
      destruct Hin as [<- | Hin]; [|exact (Hrest Hin)].
      split; [discriminate|]. split; [exact Hcur|].
      exists [], (c :: s). reflexivity.
    + assert (Hcur' : no_space (cur ++ [c]) = true).
      { rewrite no_space_app, Hcur. simpl. rewrite Hc. reflexivity. }
      destruct (IH (cur ++ [c]) w Hcur' Hin) as [H1 [H2 H3]].
      rewrite <- app_assoc in H3. auto.
Qed.

Lemma strip_by_edges (p : char -> bool) (s : str) :
  (forall c, hd_error (strip_by p s) = Some c -> p c = false)
  /\ (forall c, hd_error (rev (strip_by p s)) = Some c -> p c = false).
Proof.
  unfold strip_by. split; intros c Hc.
  - pose proof (lstrip_by_head p s) as H.
    destruct (rstrip_by_split p (lstrip_by p s)) as [post [E _]].
    destruct (rstrip_by p (lstrip_by p s)) as [|c0 r]; [discriminate|].
    injection Hc as ->. rewrite E in H. exact H.
  - unfold rstrip_by in Hc. rewrite rev_involutive in Hc.
    pose proof (lstrip_by_head p (rev (lstrip_by p s))) as H.
    destruct (lstrip_by p (rev (lstrip_by p s))); [discriminate|].
    injection Hc as ->. exact H.
Qed.

Section WithLower.

Variable lower : str -> str.

Abbreviation question_words := (question_words lower).
Abbreviation score_of := (score_of lower).
Abbreviation scan := (scan lower).
Abbreviation find_answer := (find_answer lower).

(** X7: a keyword is at least 3 characters long, holds no whitespace,
    neither begins nor ends with one of the stripped punctuation marks, and
    occurs in the lowered question. *)
Theorem question_words_shape (question w : str) :
  In w (question_words question) ->
  (3 <= len w)%Z
  /\ no_space w = true
  /\ (forall c, hd_error w = Some c -> mem_char c punctuation = false)
  /\ (forall c, hd_error (rev w) = Some c -> mem_char c punctuation = false)
  /\ substring w (lower question).
Proof.
  unfold Matcher.question_words. intros H.
  apply in_map_iff in H as [t [<- H]]. apply filter_In in H as [Ht Hlen].
  destruct (split_ws_from_pieces (lower question) [] t eq_refl Ht)
    as [_ [Hns Hsub]].
  pose proof (substring_strip_by (fun c => mem_char c punctuation) t) as Hst.
  fold (strip_chars punctuation t) in Hst.
  destruct (strip_by_edges (fun c => mem_char c punctuation) t) as [Hh Hl].
  apply Z.ltb_lt in Hlen.
  split; [lia|]. split; [exact (no_space_substring _ _ Hst Hns)|].
  split; [exact Hh|]. split; [exact Hl|].
  exact (substring_trans _ _ _ Hst Hsub).
Qed.

(** *** What the scan returns *)

Lemma score_of_le_words (words : list str) (part : str) :
  (score_of words part <= Z.of_nat (length words))%Z.
Proof.
  rewrite score_of_hits. unfold hits.
  pose proof (filter_length_le (contains (lower part)) words). lia.
Qed.

Lemma score_of_positive (words : list str) (part w : str) :
  In w words -> substring w (lower part) -> (0 < score_of words part)%Z.
Proof.
  intros Hin Hsub. rewrite score_of_hits. unfold hits.
  assert (H : In w (filter (contains (lower part)) words))
    by (apply filter_In; split; [exact Hin | apply contains_spec, Hsub]).
  destruct (filter (contains (lower part)) words); [destruct H | simpl; lia].
Qed.

Lemma scan_spec (words : list str) (parts : list str) :
  forall best_match best_score,
    (best_score <= snd (scan words parts best_match best_score))%Z
    /\ (forall p, In p parts ->
          (score_of words p <= snd (scan words parts best_match best_score))%Z)
    /\ (scan words parts best_match best_score = (best_match, best_score)
        \/ ((best_score < snd (scan words parts best_match best_score))%Z
            /\ In (fst (scan words parts best_match best_score)) parts
            /\ snd (scan words parts best_match best_score)
               = score_of words
                   (fst (scan words parts best_match best_score)))).
Proof.
  induction parts as [|p rest IH]; intros bm bs.
  - simpl. split; [lia|]. split; [tauto | auto].
  - cbn [Matcher.scan].
    destruct (Z.ltb_spec bs (score_of words p)) as [Hlt | Hge].
    + destruct (IH p (score_of words p)) as [H1 [H2 H3]].
      split; [lia|]. split.
      * intros q [<- | Hq]; [exact H1 | apply H2, Hq].
      * right. destruct H3 as [-> | [H3 [H4 H5]]]; cbn [fst snd].
        -- split; [exact Hlt|]. split; [simpl; auto | reflexivity].
        -- split; [lia|]. split; [simpl; auto | exact H5].
    + destruct (IH bm bs) as [H1 [H2 H3]].
      split; [exact H1|]. split.
      * intros q [<- | Hq]; [lia | apply H2, Hq].
      * destruct H3 as [-> | [H3 [H4 H5]]]; [left; reflexivity|].
        right. split; [exact H3|]. split; [simpl; auto | exact H5].
Qed.

Lemma find_answer_cases (question : str) (text_parts : list str) (r : str * Z) :
  find_answer question text_parts = Ok r ->
  r = (no_keywords_message, 0%Z)
  \/ (exists first rest,
        text_parts = first :: rest
        /\ r = (no_match_message ++ slice_to first 500, 0%Z))
  \/ (question_words question <> []
      /\ r = scan (question_words question) text_parts [] 0%Z
      /\ snd r <> 0%Z).
Proof.
  unfold Matcher.find_answer.
  destruct (question_words question) as [|w ws] eqn:Ew; cbn [truthy negb].
  - intros [= <-]. auto.
  - destruct (scan (w :: ws) text_parts [] 0%Z) as [bm bs] eqn:Es.
    destruct (Z.eqb_spec bs 0) as [-> | Hbs].
    + destruct text_parts as [|first rest]; [discriminate|].
      intros [= <-]. right. left. eauto.
    + intros [= <-]. right. right. split; [discriminate | auto].
Qed.

(** X8: when the score returned is positive, the answer is one of the
    chunks, the score is that chunk's score, and no chunk scores more. *)
Theorem find_answer_best (question : str) (text_parts : list str)
    (answer : str) (score : Z) :
  find_answer question text_parts = Ok (answer, score) ->
  (0 < score)%Z ->
  In answer text_parts
  /\ score = score_of (question_words question) answer
  /\ (forall p, In p text_parts ->
        (score_of (question_words question) p <= score)%Z).
Proof.
  intros H Hpos.
  destruct (find_answer_cases _ _ _ H)
    as [E | [[first [rest [_ E]]] | [_ [E _]]]];
    try (injection E as _ ->; lia).
  destruct (scan_spec (question_words question) text_parts [] 0%Z)
    as [_ [H2 H3]].
  rewrite <- E in H2, H3. cbn [fst snd] in H2, H3.
  destruct H3 as [[= _ ->] | [_ [H4 H5]]]; [lia | auto].
Qed.

(** X9: the score returned is at least 0 and at most the number of keyword
    tokens of the question. *)
Theorem find_answer_score_range (question : str) (text_parts : list str)
    (answer : str) (score : Z) :
  find_answer question text_parts = Ok (answer, score) ->
  (0 <= score <= Z.of_nat (length (question_words question)))%Z.
Proof.
  intros H.
  destruct (find_answer_cases _ _ _ H)
    as [E | [[first [rest [_ E]]] | [_ [E _]]]];
    try (injection E as _ ->; lia).
  destruct (scan_spec (question_words question) text_parts [] 0%Z)
    as [H1 [_ H3]].
  rewrite <- E in H1, H3. cbn [fst snd] in H1, H3. split; [exact H1|].
  destruct H3 as [[= _ ->] | [_ [_ ->]]]; [lia | apply score_of_le_words].
Qed.

(** X10: [find_answer] raises [IndexError] exactly when the chunk list is
    empty and the question has a keyword; without a keyword it returns the
    no-keywords message with score 0, on every chunk list, the empty one
    included. *)
Theorem find_answer_raises_iff (question : str) (text_parts : list str) :
  (find_answer question text_parts = IndexError
   <-> text_parts = [] /\ question_words question <> [])
  /\ (question_words question = [] ->
      find_answer question text_parts = Ok (no_keywords_message, 0%Z)).
Proof.
  unfold Matcher.find_answer.
  destruct (question_words question) as [|w ws] eqn:Ew; cbn [truthy negb].
  - split; [|reflexivity].
    split; [discriminate | intros [_ H]; congruence].
  - split; [|discriminate].
    destruct text_parts as [|first rest].
    + simpl. split; [intros _; split; [reflexivity | discriminate] | reflexivity].
    + destruct (scan (w :: ws) (first :: rest) [] 0%Z) as [bm bs].
      destruct (bs =? 0)%Z; split; try discriminate; intros [H _]; discriminate.
Qed.

(** X11: when some keyword occurs in some lowered chunk, the answer is one
    of the chunks, with a positive score, never one of the two messages'
    score 0. *)
Theorem find_answer_some_match (question : str) (text_parts : list str)
    (part w : str) :
  In part text_parts -> In w (question_words question) ->
  substring w (lower part) ->
  exists answer score,
    find_answer question text_parts = Ok (answer, score)
    /\ (0 < score)%Z /\ In answer text_parts.
Proof.
  intros Hp Hw Hsub. unfold Matcher.find_answer.
  destruct (question_words question) as [|w0 ws] eqn:Ew; [destruct Hw|].
  cbn [truthy negb].
  destruct (scan_spec (w0 :: ws) text_parts [] 0%Z) as [_ [H2 H3]].
  pose proof (score_of_positive (w0 :: ws) part w Hw Hsub) as Hpos.
  specialize (H2 part Hp).
  destruct (scan (w0 :: ws) text_parts [] 0%Z) as [bm bs].
  cbn [fst snd] in H2, H3.
  destruct (Z.eqb_spec bs 0) as [-> | Hbs]; [lia|].
  exists bm, bs. split; [reflexivity|]. split; [lia|].
  destruct H3 as [[= _ ->] | [_ [H4 _]]]; [lia | exact H4].
Qed.

End WithLower.

Lemma question_words_shape_witness :
  (3 <= len (lit "dogs"))%Z
  /\ no_space (lit "dogs") = true
  /\ (forall c, hd_error (lit "dogs") = Some c ->
        mem_char c punctuation = false)
  /\ (forall c, hd_error (rev (lit "dogs")) = Some c ->
        mem_char c punctuation = false)
  /\ substring (lit "dogs") (simple_lower (lit "What do (dogs) do?")).
Proof.
  apply (question_words_shape simple_lower (lit "What do (dogs) do?")).
  vm_compute. right. left. reflexivity.
Defined.

Lemma find_answer_raises_iff_witness :
  find_answer simple_lower (lit "dogs") [] = IndexError
  /\ question_words simple_lower (lit "do it") = []
  /\ find_answer simple_lower (lit "do it") [] = Ok (no_keywords_message, 0%Z).
Proof.
  split; [|split].
  - apply (proj1 (find_answer_raises_iff simple_lower (lit "dogs") [])).
    split; [reflexivity|]. vm_compute. discriminate.
  - vm_compute. reflexivity.
  - apply (proj2 (find_answer_raises_iff simple_lower (lit "do it") [])).
    vm_compute. reflexivity.
Defined.

Lemma find_answer_best_witness :
  In (lit "Dogs are big.") [lit "Cats are small."; lit "Dogs are big."]
  /\ 1%Z = score_of simple_lower
             (question_words simple_lower (lit "What do dogs do?"))
             (lit "Dogs are big.")
  /\ (forall p, In p [lit "Cats are small."; lit "Dogs are big."] ->
        (score_of simple_lower
           (question_words simple_lower (lit "What do dogs do?")) p <= 1)%Z).
Proof.
  apply (find_answer_best simple_lower (lit "What do dogs do?")).
  - vm_compute. reflexivity.
  - vm_compute. reflexivity.
Defined.

Lemma find_answer_score_range_witness :
  (0 <= 1
   <= Z.of_nat
        (length (question_words simple_lower (lit "What do dogs do?"))))%Z.
Proof.
  apply (find_answer_score_range simple_lower (lit "What do dogs do?")
           [lit "Cats are small."; lit "Dogs are big."] (lit "Dogs are big.")).
  vm_compute. reflexivity.
Defined.

Lemma find_answer_some_match_witness :
  exists answer score,
    find_answer simple_lower (lit "What do dogs do?")
      [lit "Cats are small."; lit "Dogs are big."]
    = Ok (answer, score)
    /\ (0 < score)%Z
    /\ In answer [lit "Cats are small."; lit "Dogs are big."].
Proof.
  apply (find_answer_some_match simple_lower (lit "What do dogs do?") _
           (lit "Dogs are big.") (lit "dogs")).
  - vm_compute. right. left. reflexivity.
  - vm_compute. right. left. reflexivity.
  - apply contains_spec. vm_compute. reflexivity.
Defined.

End MatcherMore.

(** ** More on the Presenter *)

Module PresenterMore.
Import Presenter PresenterFacts.

Lemma format_answer_long (x : str) (max_display_length : Z) :
  (0 <= max_display_length < len x)%Z ->
  format_answer x max_display_length
  = firstn (Z.to_nat max_display_length) x ++ truncation_marker
  /\ length (firstn (Z.to_nat max_display_length) x)
     = Z.to_nat max_display_length.
Proof.
  intros [Hm Hlong]. unfold format_answer.
  rewrite (proj2 (Z.leb_gt _ _) Hlong), slice_to_nonneg by exact Hm.
  split; [reflexivity|]. rewrite length_firstn. unfold len in Hlong. lia.
Qed.

Lemma format_answer_len_le (x : str) (max_display_length : Z) :
  (0 <= max_display_length)%Z ->
  (len (format_answer x max_display_length)
   <= max_display_length + len truncation_marker)%Z.
Proof.
  intros Hm. destruct (Z_le_gt_dec (len x) max_display_length) as [Hle | Hgt].
  - unfold format_answer. rewrite (proj2 (Z.leb_le _ _) Hle).
    pose proof (Zle_0_nat (length truncation_marker)). unfold len in *. lia.
  - destruct (format_answer_long x max_display_length) as [-> Hlen]; [lia|].
    unfold len. rewrite length_app, Hlen. lia.
Qed.

(** X12: for [max_display_length >= 0], formatting twice is formatting
    once, for every text: a truncated answer, marker included, is
    truncated to itself. *)
Theorem format_answer_idempotent (x : str) (max_display_length : Z) :
  (0 <= max_display_length)%Z ->
  format_answer (format_answer x max_display_length) max_display_length
  = format_answer x max_display_length.
Proof.
  intros Hm. destruct (Z_le_gt_dec (len x) max_display_length) as [Hle | Hgt].
  - unfold format_answer. rewrite !(proj2 (Z.leb_le _ _) Hle). reflexivity.
  - destruct (format_answer_long x max_display_length) as [E Hlen]; [lia|].
    rewrite E.
    destruct (format_answer_long
                (firstn (Z.to_nat max_display_length) x ++ truncation_marker)
                max_display_length) as [E' _].
    { unfold len. rewrite length_app, Hlen. simpl length. lia. }
    rewrite E', firstn_app, Hlen, Nat.sub_diag, firstn_firstn, Nat.min_id.
    simpl firstn at 2. rewrite app_nil_r. reflexivity.
Qed.

Lemma format_answer_idempotent_witness :
  format_answer (format_answer (lit "Dogs are big.") 4) 4
  = format_answer (lit "Dogs are big.") 4.
Proof. apply format_answer_idempotent. vm_compute. discriminate. Defined.

(** X13: a text longer than [max_display_length >= 0] by fewer characters
    than the marker has comes out longer than it went in. *)
Theorem format_answer_can_lengthen (x : str) (max_display_length : Z) :
  (0 <= max_display_length < len x)%Z ->
  (len x < max_display_length + len truncation_marker)%Z ->
  (len x < len (format_answer x max_display_length))%Z.
Proof.
  intros Hm Hshort.
  destruct (format_answer_long x max_display_length Hm) as [-> Hlen].
  unfold len in *. rewrite length_app, Hlen. lia.
Qed.

Lemma format_answer_can_lengthen_witness :
  (len (lit "Dogs are big.") < len (format_answer (lit "Dogs are big.") 4))%Z.
Proof.
  apply format_answer_can_lengthen.
  - vm_compute. split; [discriminate | reflexivity].
  - vm_compute. reflexivity.
Defined.

End PresenterMore.

(** ** The session: loading, segmenting, answering *)

Module SessionFacts.
Import Segmenter Matcher Presenter Session.

Lemma split_text_some (text : str) (max_length : Z) :
  split_text text max_length <> [].
Proof.
  unfold split_text.
  destruct (parts_loop max_length (paragraphs text) []); discriminate.
Qed.

Lemma slice_to_len_le (s : str) (n : Z) :
  (0 <= n)%Z -> (len (slice_to s n) <= n)%Z.
Proof.
  intros Hn. rewrite PresenterFacts.slice_to_nonneg by exact Hn.
  unfold len. rewrite length_firstn. lia.
Qed.

(** X14: in a session, whatever the text and the question, the question is
    answered without [IndexError], the score is not negative, and what is
    displayed is at most 1025 characters long. *)
Theorem session_answer_returns (lower : str -> str) (text question : str) :
  exists shown score,
    session_answer lower text question = Ok (shown, score)
    /\ (0 <= score)%Z /\ (len shown <= 1025)%Z.
Proof.
  unfold session_answer, answer_question.
  pose proof (split_text_some text default_max_length) as Hne.
  destruct (find_answer lower question (split_text text default_max_length))
    as [[answer score]|] eqn:E.
  - exists (format_answer answer default_max_display_length), score.
    split; [reflexivity|]. split.
    + destruct (MatcherMore.find_answer_cases lower _ _ _ E)
        as [H | [[first [rest [_ H]]] | [_ [H _]]]];
        try (injection H as _ ->; lia).
      pose proof (MatcherMore.scan_spec lower (question_words lower question)
                    (split_text text default_max_length) [] 0%Z) as [H1 _].
      rewrite <- H in H1. exact H1.
    + pose proof (PresenterMore.format_answer_len_le answer
                    default_max_display_length) as H.
      change (len truncation_marker) with 25%Z in H.
      unfold default_max_display_length in *. lia.
  - exfalso. revert E. unfold find_answer.
    destruct (negb (truthy (question_words lower question))); [discriminate|].
    destruct (scan lower (question_words lower question)
                (split_text text default_max_length) [] 0%Z) as [bm bs].
    destruct (bs =? 0)%Z; [|discriminate].
    destruct (split_text text default_max_length); [congruence | discriminate].
Qed.

(** X15: a score of 0 in a session comes with a message that is shown
    whole: the no-keywords message, or the no-match message and at most 500
    characters of the first chunk, never cut by the Presenter. *)
Theorem session_zero_score_untruncated (lower : str -> str)
    (text question shown : str) :
  session_answer lower text question = Ok (shown, 0%Z) ->
  shown = no_keywords_message
  \/ exists first rest,
       split_text text default_max_length = first :: rest
       /\ shown = no_match_message ++ firstn 500 first.
Proof.
  unfold session_answer, answer_question.
  destruct (find_answer lower question (split_text text default_max_length))
    as [[answer score]|] eqn:E; [|discriminate].
  intros [= <- ->].
  destruct (MatcherMore.find_answer_cases lower _ _ _ E)
    as [H | [[first [rest [Hparts H]]] | [_ [_ H]]]].
  - assert (Ha : answer = no_keywords_message) by congruence.
    subst answer. left. reflexivity.
  - assert (Ha : answer = no_match_message ++ slice_to first 500)
      by congruence.
    subst answer. right. exists first, rest. split; [exact Hparts|].
    unfold format_answer.
    assert (Hlen : (len (no_match_message ++ slice_to first 500)
                    <= default_max_display_length)%Z).
    { pose proof (slice_to_len_le first 500).
      unfold len in *. rewrite length_app. simpl length at 1.
      unfold default_max_display_length. lia. }
    apply Z.leb_le in Hlen. rewrite Hlen. reflexivity.
  - simpl in H. congruence.
Qed.

Lemma session_zero_score_untruncated_witness :
  no_match_message ++ lit "Cats are small." = no_keywords_message
  \/ exists first rest,
       split_text two_paragraphs default_max_length = first :: rest
       /\ no_match_message ++ lit "Cats are small."
          = no_match_message ++ firstn 500 first.
Proof.
  apply (session_zero_score_untruncated simple_lower two_paragraphs
           (lit "xyz abc")).
  vm_compute. reflexivity.
Defined.

(** *** A loaded text *)

Lemma loaded_text_not_blank {path : Type} (fs : Loader.filesystem path)
    (file_path : path) (text : str) :
  Loader.read_text_file fs file_path = inl text -> nonws text <> [].
Proof.
  unfold Loader.read_text_file.
  destruct (negb (Loader.path_exists fs file_path)); [discriminate|].
  destruct (negb (Loader.path_isfile fs file_path)); [discriminate|].
  destruct (match Loader.read_as fs file_path Loader.UTF8 with
            | Some t => Some t
            | None => Loader.read_as fs file_path Loader.CP1251
            end) as [t|]; [|discriminate].
  destruct (truthy (strip t)) eqn:E; [|discriminate].
  cbn [negb]. intros [= ->]. rewrite <- nonws_strip.
  apply SegmenterMore.tidy_nonws, SegmenterFacts.tidy_strip, E.
Qed.

(** X16: for a text that [read_text_file] returns, the Segmenter does not
    take its whole-text fallback, and every chunk is non-empty and is its
    own [strip()], whatever [max_length]. *)
Theorem loaded_text_chunks {path : Type} (fs : Loader.filesystem path)
    (file_path : path) (text : str) (max_length : Z) :
  Loader.read_text_file fs file_path = inl text ->
  split_text text max_length = parts_loop max_length (paragraphs text) []
  /\ (forall chunk, In chunk (split_text text max_length) ->
        chunk <> [] /\ strip chunk = chunk).
Proof.
  intros Hload. apply loaded_text_not_blank in Hload.
  pose proof (SegmenterMore.final_parts_tidy text max_length) as Htidy.
  pose proof (SegmenterFacts.fallback_only_blank text max_length) as Hfb.
  unfold split_text.
  destruct (parts_loop max_length (paragraphs text) []) as [|c0 fp];
    cbn [truthy].
  - exfalso. apply Hload, Hfb. reflexivity.
  - split; [reflexivity|]. intros chunk Hin.
    rewrite Forall_forall in Htidy. destruct (Htidy chunk Hin) as [Hne Htr].
    split; [exact Hne | apply strip_trimmed, Htr].
Qed.

Lemma loaded_text_chunks_witness :
  split_text two_paragraphs 6 = parts_loop 6 (paragraphs two_paragraphs) []
  /\ (forall chunk, In chunk (split_text two_paragraphs 6) ->
        chunk <> [] /\ strip chunk = chunk).
Proof.
  apply (loaded_text_chunks (one_file two_paragraphs) tt).
  vm_compute. reflexivity.
Defined.

End SessionFacts.

(** ** No chunk holds a blank line *)

Module BlankLineFacts.
Import Segmenter SegmenterFacts.

Lemma has_blank_line_step (a b : char) (s : str) :
  has_blank_line (a :: b :: s)
  = ((a =? NL) && (b =? NL)) || has_blank_line (b :: s).
Proof. reflexivity. Qed.

Lemma has_blank_line_contains (s : str) :
  has_blank_line s = contains s [NL; NL].
Proof.
  induction s as [|a [|b s] IH]; [reflexivity | |].
  - simpl. rewrite andb_false_r. reflexivity.
  - rewrite has_blank_line_step, IH.
    change (contains (a :: b :: s) [NL; NL])
      with (starts_with (a :: b :: s) [NL; NL] || contains (b :: s) [NL; NL]).
    f_equal. cbn [starts_with].
    replace (starts_with s []) with true by (destruct s; reflexivity).
    rewrite andb_true_r, (N.eqb_sym NL a), (N.eqb_sym NL b). reflexivity.
Qed.

Lemma has_blank_line_app (x y : str) :
  has_blank_line (x ++ y)
  = has_blank_line x || has_blank_line y
    || ((last x 0 =? NL) && (hd 0 y =? NL)).
Proof.
  induction x as [|a [|b x] IH].
  - simpl. rewrite orb_false_r. reflexivity.
  - destruct y as [|b y].
    + simpl. rewrite andb_false_r. reflexivity.
    + change ([a] ++ b :: y) with (a :: b :: y).
      rewrite has_blank_line_step.
      change (has_blank_line [a]) with false.
      change (last [a] 0) with a. change (hd 0 (b :: y)) with b.
      destruct (a =? NL), (b =? NL), (has_blank_line (b :: y)); reflexivity.
  - change ((a :: b :: x) ++ y) with (a :: b :: (x ++ y)).
    change (b :: (x ++ y)) with ((b :: x) ++ y) in *.
    change (a :: (b :: x) ++ y) with (a :: b :: (x ++ y)).
    rewrite !has_blank_line_step.
    change (b :: (x ++ y)) with ((b :: x) ++ y). rewrite IH.
    change (last (a :: b :: x) 0) with (last (b :: x) 0).
    rewrite !orb_assoc. reflexivity.
Qed.

Lemma no_blank_line_substring (w s : str) :
  substring w s -> has_blank_line s = false -> has_blank_line w = false.
Proof.
  intros [pre [post E]] H. rewrite E, !has_blank_line_app in H.
  rewrite !orb_false_iff in H. tauto.
Qed.

Lemma no_blank_line_strip (s : str) :
  has_blank_line s = false -> has_blank_line (strip s) = false.
Proof.
  apply no_blank_line_substring.
  destruct (strip_by_split is_space s) as [pre [post [E _]]].
  exists pre, post. exact E.
Qed.

Lemma split_nn_from_no_blank_line (n : nat) :
  forall s cur piece,
    (length s <= n)%nat ->
    has_blank_line cur = false ->
    (last cur 0 =? NL) && (hd 0 s =? NL) = false ->
    In piece (split_nn_from cur s) -> has_blank_line piece = false.
Proof.
  induction n as [|n IH]; intros s cur piece Hn Hcur Hedge Hin.
  - destruct s; simpl in Hn; [|lia]. destruct Hin as [<- | []]. exact Hcur.
  - destruct s as [|a [|b rest]].
    + destruct Hin as [<- | []]. exact Hcur.
    + destruct Hin as [<- | []]. rewrite has_blank_line_app, Hcur.
      simpl in *. rewrite Hedge. reflexivity.
    + rewrite split_nn_from_step in Hin.
      destruct ((a =? NL) && (b =? NL)) eqn:E.
      * destruct Hin as [<- | Hin]; [exact Hcur|].
        apply (IH rest [] piece); [simpl in Hn; lia | reflexivity | reflexivity
                                  | exact Hin].
      * apply (IH (b :: rest) (cur ++ [a]) piece);
          [simpl in *; lia | | | exact Hin].
        -- rewrite has_blank_line_app, Hcur. simpl in *. rewrite Hedge.
           reflexivity.
        -- rewrite last_last. exact E.
Qed.

Lemma paragraphs_no_blank_line (text part : str) :
  In part (paragraphs text) -> has_blank_line part = false.
Proof.
  unfold paragraphs. intros H. apply in_map_iff in H as [x [<- H]].
  apply filter_In in H as [H _]. apply no_blank_line_strip.
  apply (split_nn_from_no_blank_line (length text) text [] x);
    [apply le_n | reflexivity | reflexivity | exact H].
Qed.

Lemma sentence_loop_substring (whole : str) (part : str) :
  forall sentences current pre,
    whole = pre ++ current ++ part ->
    Forall (fun s => substring s whole) sentences ->
    Forall (fun s => substring s whole)
      (fst (sentence_loop part sentences current))
    /\ substring (snd (sentence_loop part sentences current)) whole.
Proof.
  induction part as [|c rest IH]; intros sentences current pre E Hs.
  - simpl. split; [exact Hs|]. exists pre, []. exact E.
  - cbn [sentence_loop]. destruct (is_terminal c).
    + apply (IH _ [] (pre ++ current ++ [c])).
      * rewrite E, <- !app_assoc. reflexivity.
      * apply Forall_app. split; [exact Hs|]. constructor; [|constructor].
        destruct (strip_by_split is_space (current ++ [c]))
          as [p1 [p2 [E' _]]].
        fold (strip (current ++ [c])) in E'.
        exists (pre ++ p1), (p2 ++ rest).
        rewrite E. change (c :: rest) with ([c] ++ rest).
        rewrite (app_assoc current [c] rest). rewrite E' at 1.
        rewrite <- !app_assoc. reflexivity.
    + apply (IH _ (current ++ [c]) pre); [|exact Hs].
      rewrite E, <- !app_assoc. reflexivity.
Qed.

Lemma sentences_of_substring (part s : str) :
  In s (sentences_of part) -> substring s part.
Proof.
  unfold sentences_of.
  destruct (sentence_loop_substring part part [] [] [] eq_refl (Forall_nil _))
    as [Hs Hc].
  destruct (sentence_loop part [] []) as [sentences current].
  cbn [fst snd] in Hs, Hc. rewrite Forall_forall in Hs.
  destruct (truthy (strip current)); [|apply Hs].
  intros Hin. apply in_app_or in Hin as [Hin | [<- | []]]; [apply Hs, Hin|].
  destruct Hc as [p1 [p2 E]].
  destruct (strip_by_split is_space current) as [q1 [q2 [E' _]]].
  fold (strip current) in E'. exists (p1 ++ q1), (q2 ++ p2).
  rewrite E. rewrite E' at 1. rewrite <- !app_assoc. reflexivity.
Qed.

(** X17: on a text with a non-whitespace character, no chunk holds two
    newlines in a row: the blank lines that separate paragraphs never
    reach a chunk. *)
Theorem split_text_no_blank_line (text : str) (max_length : Z) (chunk : str) :
  nonws text <> [] ->
  In chunk (split_text text max_length) ->
  ~ substring [NL; NL] chunk.
Proof.
  intros Htext Hin.
  assert (HQ : Forall (fun c => has_blank_line c = false)
                 (parts_loop max_length (paragraphs text) [])).
  { apply parts_loop_invariant; [| | |constructor].
    - intros part Hp _. apply (paragraphs_no_blank_line text), Hp.
    - intros part s Hp _ Hs.
      apply (no_blank_line_substring s part (sentences_of_substring _ _ Hs)).
      apply (paragraphs_no_blank_line text), Hp.
    - intros part cp s Hp _ Hcp Hs _ _.
      assert (Hsn : has_blank_line s = false).
      { apply (no_blank_line_substring s part (sentences_of_substring _ _ Hs)).
        apply (paragraphs_no_blank_line text), Hp. }
      rewrite !has_blank_line_app, Hcp, Hsn. simpl.
      rewrite andb_false_r. reflexivity. }
  unfold split_text in Hin.
  destruct (parts_loop max_length (paragraphs text) []) as [|c0 fp] eqn:E;
    cbn [truthy] in Hin.
  - exfalso. apply Htext, (fallback_only_blank text max_length), E.
  - rewrite Forall_forall in HQ. specialize (HQ chunk Hin).
    rewrite has_blank_line_contains in HQ.
    apply MatcherFacts.contains_false, HQ.
Qed.

Lemma split_text_no_blank_line_witness :
  ~ substring [NL; NL] (lit "Dogs are big.").
Proof.
  apply (split_text_no_blank_line two_paragraphs default_max_length).
  - vm_compute. discriminate.
  - vm_compute. right. left. reflexivity.
Defined.

End BlankLineFacts.
